(** * HMM basics: the sentence generator of the tutorial notebook

    A shallow embedding of [HMM basics.ipynb]: the parameter tables
    ([initial], [transition], [emission]), the label dictionaries, and the
    function [generate], which samples a sequence of latent states and the
    words they emit until the state [<EOS>] is drawn.

    [np.random.choice] is the only source of randomness.  It is taken as a
    parameter: a function over an explicit generator state that either
    returns an index or refuses its arguments.  Probabilities are
    rationals. *)

From Stdlib Require Import String List Arith Bool ZArith QArith Qabs Lia.
From Stdlib Require Import Floats Uint63.
Import ListNotations.

Close Scope Q_scope.
Close Scope float_scope.
Close Scope uint63_scope.
Open Scope string_scope.
Open Scope nat_scope.
Open Scope list_scope.

(** ** Exceptions, outcomes and the state-and-exception monad *)

(** The subscripted object of a failed lookup. *)
Inductive array_name : Type :=
| Transition      (* transition[h] *)
| Emission        (* emission[h] *)
| EmissionShape.  (* emission.shape[1] *)

Inductive exn : Type :=
| IndexError (a : array_name) (i : nat)
| ValueError.     (* raised by the sampler *)

(** A call returns, raises, or is still looping when the fuel is spent. *)
Inductive outcome (A : Type) : Type :=
| Ok (a : A)
| Raise (e : exn)
| Diverge.

Arguments Ok {A} a.
Arguments Raise {A} e.
Arguments Diverge {A}.

(** Computations over the generator state [S]; the state survives an
    exception, as the global numpy generator does. *)
Definition M (S A : Type) : Type := S -> outcome A * S.

Definition ret {S A} (a : A) : M S A := fun s => (Ok a, s).
Definition raise {S A} (e : exn) : M S A := fun s => (Raise e, s).
Definition diverge {S A} : M S A := fun s => (Diverge, s).

Definition bind {S A B} (m : M S A) (k : A -> M S B) : M S B :=
  fun s =>
    match m s with
    | (Ok a, s') => k a s'
    | (Raise e, s') => (Raise e, s')
    | (Diverge, s') => (Diverge, s')
    end.

Notation "x <- m ;; k" := (bind m (fun x => k))
  (at level 61, m at next level, right associativity).
Notation "' pat <- m ;; k" := (bind m (fun x => match x with pat => k end))
  (at level 61, pat pattern, m at next level, right associativity).

(** ** Dictionaries *)

(** A Python dict with integer keys, in insertion order. *)
Fixpoint dict_get {V : Type} (d : list (nat * V)) (k : nat) : option V :=
  match d with
  | [] => None
  | (k', v) :: d' => if Nat.eqb k' k then Some v else dict_get d' k
  end.

(** A Python dict with string keys. *)
Fixpoint dict_find (d : list (string * nat)) (k : string) : option nat :=
  match d with
  | [] => None
  | (k', v) :: d' => if String.eqb k' k then Some v else dict_find d' k
  end.

Definition id2state : list (nat * string) :=
  [(0, "Subject"); (1, "Adjective"); (2, "Adverb"); (3, "Verb");
   (4, "Object"); (5, "<EOS>")].

(** [state2id = {id2state[s]: s for s in id2state}] *)
Definition state2id : list (string * nat) :=
  map (fun '(s, name) => (name, s)) id2state.

Definition word2id : list (string * nat) :=
  [("I", 0); ("He", 1); ("Jack", 2); ("Mary", 3); ("likes", 4);
   ("loves", 5); ("hates", 6); ("really", 7); ("extremely", 8);
   ("pretty", 9); ("cute", 10); ("adorable", 11); ("cats", 12);
   ("dogs", 13); (".", 14)].

(** [id2word = {word2id[w]: w for w in word2id}] *)
Definition id2word : list (nat * string) :=
  map (fun '(w, i) => (i, w)) word2id.

(** [state2id['<EOS>']], the value the loop of [generate] compares with. *)
Definition EOS : nat :=
  Eval cbv in match dict_find state2id "<EOS>" with Some i => i | None => 0 end.

(** ** The parameter tables of the notebook *)

Definition initial : list Q := [0.7; 0.3; 0.0; 0.0; 0.0; 0.0]%Q.

Definition transition : list (list Q) :=
  [ [0.0; 0.0; 0.3; 0.7; 0.0; 0.0];
    [0.4; 0.1; 0.0; 0.0; 0.5; 0.0];
    [0.0; 0.3; 0.0; 0.7; 0.0; 0.0];
    [0.0; 0.3; 0.2; 0.0; 0.5; 0.0];
    [0.0; 0.0; 0.0; 0.0; 0.0; 1.0] ]%Q.

Definition emission : list (list Q) :=
  [ [0.2; 0.2; 0.2; 0.2; 0; 0; 0; 0; 0; 0; 0; 0; 0.1; 0.1; 0.0];
    [0; 0; 0; 0; 0; 0; 0; 0; 0; 0.5; 0.25; 0.25; 0; 0; 0.0];
    [0; 0; 0; 0; 0; 0; 0; 0.25; 0.25; 0.5; 0; 0; 0; 0; 0];
    [0; 0; 0; 0; 0.3; 0.4; 0.3; 0; 0; 0; 0; 0; 0; 0; 0];
    [0; 0; 0.2; 0.2; 0; 0; 0; 0; 0; 0; 0; 0; 0.3; 0.3; 0];
    [0; 0; 0; 0; 0; 0; 0; 0; 0; 0; 0; 0; 0; 0; 1.0] ]%Q.

(** The sum of a row, over the rationals. *)
Definition row_sum (p : list Q) : Q := fold_right Qplus 0%Q p.

(** The double that Python reads from a nonnegative decimal literal: the
    quotient of two small integers, rounded to nearest. *)
Definition binary64 (q : Q) : float :=
  PrimFloat.div (PrimFloat.of_uint63 (Uint63.of_Z (Qnum q)))
                (PrimFloat.of_uint63 (Uint63.of_Z (Zpos (Qden q)))).

(** The sum of a row in double precision, added from left to right. *)
Definition float_sum (p : list Q) : float :=
  fold_left PrimFloat.add (map binary64 p) PrimFloat.zero.

(** [abs(x - 1) <= 1e-6] in double precision. *)
Definition close_to_one (x : float) : bool :=
  PrimFloat.leb (PrimFloat.abs (PrimFloat.sub x PrimFloat.one))
                (binary64 1e-6%Q).

(** ** Subscripting *)

(** [a[h]] on a two-dimensional array, [h] a nonnegative index. *)
Definition getitem {S} (a : array_name) (t : list (list Q)) (h : nat)
  : M S (list Q) :=
  match nth_error t h with
  | Some row => ret row
  | None => raise (IndexError a h)
  end.

(** [emission.shape[1]]: the array of no rows has shape [(0,)]. *)
Definition shape1 {S} (t : list (list Q)) : M S nat :=
  match t with
  | [] => raise (IndexError EmissionShape 1)
  | row :: _ => ret (length row)
  end.

(** ** The generator *)

Section Generator.

(** The state of the random generator, and the sampler: an index, or
    [None] when it refuses its arguments. *)
Variable rng : Type.
Variable choice : nat -> list Q -> rng -> option nat * rng.

(** [np.random.choice(n, p=p)] *)
Definition random_choice (n : nat) (p : list Q) : M rng nat :=
  fun g =>
    match choice n p g with
    | (Some i, g') => (Ok i, g')
    | (None, g') => (Raise ValueError, g')
    end.

(** The [while] loop of [generate]; [fuel] bounds the iterations. *)
Fixpoint while_loop (fuel : nat) (num_states num_words : nat)
    (transition emission : list (list Q))
    (h : nat) (h_total v_total : list nat)
  : M rng (nat * list nat * list nat) :=
  if Nat.eqb h EOS then ret (h, h_total, v_total)
  else
    match fuel with
    | O => diverge
    | S fuel' =>
        p <- getitem Emission emission h ;;
        v <- random_choice num_words p ;;
        let v_total := v_total ++ [v] in
        q <- getitem Transition transition h ;;
        h <- random_choice num_states q ;;
        let h_total := h_total ++ [h] in
        while_loop fuel' num_states num_words transition emission
          h h_total v_total
    end.

Definition generate (fuel : nat) (initial : list Q)
    (transition emission : list (list Q))
  : M rng (list nat * list nat) :=
  let num_states := length initial in
  num_words <- shape1 emission ;;
  h <- random_choice num_states initial ;;
  let h_total := [h] in
  let v_total := [] in
  '(h, h_total, v_total) <-
    while_loop fuel num_states num_words transition emission
      h h_total v_total ;;
  p <- getitem Emission emission h ;;
  v <- random_choice num_words p ;;
  let v_total := v_total ++ [v] in
  ret (h_total, v_total).

End Generator.

Arguments random_choice {rng} choice n p.
Arguments while_loop {rng} choice fuel num_states num_words
  transition emission h h_total v_total.
Arguments generate {rng} choice fuel initial transition emission.

(** ** The algorithm of the specification

    Section 4.2 of the specification, in its own words: draw the first
    state over [initial]; then repeat: draw an observation over
    [emission[current_state]] and append the pair; stop if
    [current_state] is the terminal index, otherwise draw the next state
    over [transition[current_state]]. *)

Section Algorithm.

Variable rng : Type.
Variable choice : nat -> list Q -> rng -> option nat * rng.

(** A categorical draw over a probability vector [p] of length K. *)
Definition categorical (p : list Q) : M rng nat :=
  random_choice choice (length p) p.

Fixpoint algorithm_loop (fuel : nat) (terminal_index : nat)
    (transition emission : list (list Q))
    (current_state : nat) (trajectory : list (nat * nat))
  : M rng (list (nat * nat)) :=
  match fuel with
  | O => diverge
  | S fuel' =>
      p <- getitem Emission emission current_state ;;
      observation <- categorical p ;;
      let trajectory := trajectory ++ [(current_state, observation)] in
      if Nat.eqb current_state terminal_index then ret trajectory
      else
        q <- getitem Transition transition current_state ;;
        next <- categorical q ;;
        algorithm_loop fuel' terminal_index transition emission
          next trajectory
  end.

Definition algorithm (fuel : nat) (terminal_index : nat)
    (initial : list Q) (transition emission : list (list Q))
  : M rng (list (nat * nat)) :=
  first <- categorical initial ;;
  algorithm_loop fuel terminal_index transition emission first [].

End Algorithm.

Arguments categorical {rng} choice p.
Arguments algorithm_loop {rng} choice fuel terminal_index
  transition emission current_state trajectory.
Arguments algorithm {rng} choice fuel terminal_index
  initial transition emission.

(** [[d[v] for v in l]]; [None] is a [KeyError]. *)
Fixpoint labels (d : list (nat * string)) (l : list nat)
  : option (list string) :=
  match l with
  | [] => Some []
  | v :: l' =>
      match dict_get d v with
      | None => None
      | Some w =>
          match labels d l' with
          | None => None
          | Some ws => Some (w :: ws)
          end
      end
  end.

(** [' '.join([d[v] for v in l])] *)
Definition render (d : list (nat * string)) (l : list nat) : option string :=
  match labels d l with
  | None => None
  | Some ws => Some (String.concat " " ws)
  end.

(** ** Samplers *)

Definition positive_at (p : list Q) (i : nat) : bool :=
  negb (Qle_bool (nth i p 0%Q) 0).

(** A sampler that replays a list of draws, and refuses a draw of no
    probability in the vector it is given. *)
Definition scripted (n : nat) (p : list Q) (script : list nat)
  : option nat * list nat :=
  match script with
  | [] => (None, [])
  | d :: rest => if positive_at p d then (Some d, rest) else (None, rest)
  end.

Fixpoint first_positive (p : list Q) (i : nat) : option nat :=
  match p with
  | [] => None
  | x :: p' => if negb (Qle_bool x 0) then Some i else first_positive p' (S i)
  end.

(** A sampler without state: the first index of positive probability. *)
Definition greedy (n : nat) (p : list Q) (g : unit) : option nat * unit :=
  (first_positive p 0, g).

(** One call of the sampler: its arguments and the index it returned. *)
Record draw : Type := Draw { draw_n : nat; draw_p : list Q; draw_i : nat }.

(** A sampler together with the record of its draws, oldest first. *)
Definition logged {rng} (choice : nat -> list Q -> rng -> option nat * rng)
    (n : nat) (p : list Q) '((g, log) : rng * list draw)
  : option nat * (rng * list draw) :=
  match choice n p g with
  | (Some i, g') => (Some i, (g', log ++ [Draw n p i]))
  | (None, g') => (None, (g', log))
  end.

(** The sampler returns only indices of positive probability in the
    vector it is given. *)
Definition supported {rng}
    (choice : nat -> list Q -> rng -> option nat * rng) : Prop :=
  forall n p g i g', choice n p g = (Some i, g') -> (0 < nth i p 0)%Q.

(** ** Definitions for the properties *)

(** [steps choice N W tr em h g hs vs g']: from the current state [h] and
    the generator state [g], the loop draws the states [hs] in turn, the
    last of them [<EOS>], the words [vs] are emitted by [h] and by the
    states of [hs], and the generator is left in [g']. *)
Inductive steps {rng : Type}
    (choice : nat -> list Q -> rng -> option nat * rng)
    (N W : nat) (tr em : list (list Q))
  : nat -> rng -> list nat -> list nat -> rng -> Prop :=
| steps_stop h g p v g' :
    h = EOS ->
    nth_error em h = Some p -> choice W p g = (Some v, g') ->
    steps choice N W tr em h g [] [v] g'
| steps_go h g p v g1 q h' g2 hs vs g' :
    h <> EOS ->
    nth_error em h = Some p -> choice W p g = (Some v, g1) ->
    nth_error tr h = Some q -> choice N q g1 = (Some h', g2) ->
    steps choice N W tr em h' g2 hs vs g' ->
    steps choice N W tr em h g (h' :: hs) (v :: vs) g'.

(** The statements of [generate] after its loop. *)
Definition finish {rng} (choice : nat -> list Q -> rng -> option nat * rng)
    (W : nat) (em : list (list Q)) (x : nat * list nat * list nat)
  : M rng (list nat * list nat) :=
  let '(h, h_total, v_total) := x in
  p <- getitem Emission em h ;;
  v <- random_choice choice W p ;;
  ret (h_total, v_total ++ [v]).

(** The script of the scenario: Subject, "I", Verb, "likes", Object,
    "dogs", <EOS>, ".". *)
Definition scenario : list nat := [0; 0; 3; 4; 4; 13; 5; 14].

(** The draws of the scenario, each with the vector it was drawn from. *)
Definition scenario_log : list draw :=
  [ Draw 6 initial 0;
    Draw 15 (nth 0 emission []) 0;  Draw 6 (nth 0 transition []) 3;
    Draw 15 (nth 3 emission []) 4;  Draw 6 (nth 3 transition []) 4;
    Draw 15 (nth 4 emission []) 13; Draw 6 (nth 4 transition []) 5;
    Draw 15 (nth 5 emission []) 14 ].

(** The row [p] is 1 at [j] and 0 elsewhere. *)
Definition one_hot (j : nat) (p : list Q) : Prop :=
  (nth j p 0 == 1)%Q /\ forall i, i <> j -> (nth i p 0 == 0)%Q.

(** The elements at the even positions and those at the odd positions. *)
Fixpoint alternate (l : list nat) : list nat * list nat :=
  match l with
  | [] => ([], [])
  | x :: l' => let (a, b) := alternate l' in (x :: b, a)
  end.

(** The words [vs] and the states [hs] of a run in the order they are
    drawn. *)
Fixpoint weave (vs hs : list nat) : list nat :=
  match vs, hs with
  | v :: vs', h :: hs' => v :: h :: weave vs' hs'
  | _, [] => vs
  | [], _ => hs
  end.

(** The states that a path of positive probability leads to, from a state
    of positive initial probability. *)
Inductive reachable (init : list Q) (tr : list (list Q)) : nat -> Prop :=
| reachable_initial s :
    (0 < nth s init 0)%Q -> reachable init tr s
| reachable_step s q t :
    reachable init tr s ->
    nth_error tr s = Some q -> (0 < nth t q 0)%Q ->
    reachable init tr t.

(** The transition table of the notebook with the row of Object turned
    back to Subject: no row gives [<EOS>] any probability. *)
Definition looping_transition : list (list Q) :=
  [ [0.0; 0.0; 0.3; 0.7; 0.0; 0.0];
    [0.4; 0.1; 0.0; 0.0; 0.5; 0.0];
    [0.0; 0.3; 0.0; 0.7; 0.0; 0.0];
    [0.0; 0.3; 0.2; 0.0; 0.5; 0.0];
    [1.0; 0.0; 0.0; 0.0; 0.0; 0.0] ]%Q.

(** The draws of three turns of the loop on [looping_transition] with the
    sampler [greedy]: Subject, Adverb, Adjective, and Subject again. *)
Definition looping_log : list draw :=
  [ Draw 6 initial 0;
    Draw 15 (nth 0 emission []) 0; Draw 6 (nth 0 looping_transition []) 2;
    Draw 15 (nth 2 emission []) 7; Draw 6 (nth 2 looping_transition []) 1;
    Draw 15 (nth 1 emission []) 9; Draw 6 (nth 1 looping_transition []) 0 ].

(** Where an exception of [generate] comes from: a refusal of the sampler,
    or a subscript beyond the rows of a table. *)
Definition raised_by {rng} (choice : nat -> list Q -> rng -> option nat * rng)
    (tr em : list (list Q)) (e : exn) (g' : rng) : Prop :=
  match e with
  | ValueError => exists n p g0, choice n p g0 = (None, g')
  | IndexError Transition h => nth_error tr h = None
  | IndexError Emission h => nth_error em h = None
  | IndexError EmissionShape _ => em = []
  end.

(** The transition table of the notebook with a negative entry in the row
    of Adverb, which then sums to 0.4. *)
Definition skewed_transition : list (list Q) :=
  [ [0.0; 0.0; 0.3; 0.7; 0.0; 0.0];
    [0.4; 0.1; 0.0; 0.0; 0.5; 0.0];
    [0.0; -0.3; 0.0; 0.7; 0.0; 0.0];
    [0.0; 0.3; 0.2; 0.0; 0.5; 0.0];
    [0.0; 0.0; 0.0; 0.0; 0.0; 1.0] ]%Q.

(** ** The rest of the notebook *)

(** *** Dicts and the comprehensions that invert them *)

Section Dict.

Variables K V : Type.
Variable eqb : K -> K -> bool.

(** [d[k]]; [None] is a [KeyError]. *)
Fixpoint dict_lookup (d : list (K * V)) (k : K) : option V :=
  match d with
  | [] => None
  | (k', v) :: d' => if eqb k' k then Some v else dict_lookup d' k
  end.

(** [d[k] = v]: the value of a key of [d] is replaced where it stands, a
    new key goes last. *)
Fixpoint dict_set (d : list (K * V)) (k : K) (v : V) : list (K * V) :=
  match d with
  | [] => [(k, v)]
  | (k', v') :: d' =>
      if eqb k' k then (k', v) :: d' else (k', v') :: dict_set d' k v
  end.

End Dict.

Arguments dict_lookup {K V} eqb d k.
Arguments dict_set {K V} eqb d k v.

Definition swap {K V : Type} (x : K * V) : V * K := (snd x, fst x).

(** [{d[k]: k for k in d}]: the keys of [d] in order, each looked up in
    [d] and stored under its value. *)
Definition inverted {K V} (eqbK : K -> K -> bool) (eqbV : V -> V -> bool)
    (d : list (K * V)) : list (V * K) :=
  fold_left
    (fun acc k =>
       match dict_lookup eqbK d k with
       | Some v => dict_set eqbV acc v k
       | None => acc
       end)
    (map fst d) [].

(** *** The cell that samples the Markov chain alone

    [num_states = len(initial)], a first state drawn over [initial],
    [h_total = []; h_total.append(h)], and the loop that draws the next
    state over [transition[h]] until [<EOS>].  The cell reads the tables
    of the notebook; here they are arguments. *)

Section Chain.

Variable rng : Type.
Variable choice : nat -> list Q -> rng -> option nat * rng.

Fixpoint chain_loop (fuel : nat) (num_states : nat)
    (transition : list (list Q)) (h : nat) (h_total : list nat)
  : M rng (list nat) :=
  if Nat.eqb h EOS then ret h_total
  else
    match fuel with
    | O => diverge
    | S fuel' =>
        q <- getitem Transition transition h ;;
        h <- random_choice choice num_states q ;;
        let h_total := h_total ++ [h] in
        chain_loop fuel' num_states transition h h_total
    end.

Definition markov_chain (fuel : nat) (initial : list Q)
    (transition : list (list Q)) : M rng (list nat) :=
  let num_states := length initial in
  h <- random_choice choice num_states initial ;;
  let h_total := [] in
  let h_total := h_total ++ [h] in
  chain_loop fuel num_states transition h h_total.

End Chain.

Arguments chain_loop {rng} choice fuel num_states transition h h_total.
Arguments markov_chain {rng} choice fuel initial transition.

(** *** Definitions for the further properties *)

(** [walk tr h hs]: from [h] the states [hs] follow one another with
    positive probability in [tr], no state before the last is [<EOS>],
    and the last is. *)
Inductive walk (tr : list (list Q)) : nat -> list nat -> Prop :=
| walk_stop : walk tr EOS []
| walk_go h q h' hs :
    h <> EOS ->
    nth_error tr h = Some q -> (0 < nth h' q 0)%Q ->
    walk tr h' hs ->
    walk tr h (h' :: hs).

(** The calls of the sampler in a run from the state [h]: one over the
    emission row of each state, and between them one over the transition
    row of the state left. *)
Fixpoint draws_of (N W : nat) (tr em : list (list Q))
    (h : nat) (hs vs : list nat) : list draw :=
  match vs with
  | [] => []
  | v :: vs' =>
      Draw W (nth h em []) v ::
      match hs with
      | [] => []
      | h' :: hs' => Draw N (nth h tr []) h' :: draws_of N W tr em h' hs' vs'
      end
  end.

(** What [np.random.choice(n, p=p)] asks of its arguments: [p] has [n]
    entries, none negative, that sum to 1. *)
Definition distribution (n : nat) (p : list Q) : Prop :=
  length p = n /\ Forall (Qle 0) p /\ (row_sum p == 1)%Q.

(** The sampler refuses no distribution. *)
Definition accepting {rng}
    (choice : nat -> list Q -> rng -> option nat * rng) : Prop :=
  forall n p g, distribution n p -> fst (choice n p g) <> None.

(** The script that makes [scripted] follow a run: the words [vs] and the
    states [hs] in the order they are drawn. *)
Definition script_of (h : nat) (hs vs : list nat) : list nat :=
  h :: weave vs hs.

(** * Properties *)

(** ** The monad *)

Lemma bind_Ok {S A B} (m : M S A) (k : A -> M S B) s b s' :
  bind m k s = (Ok b, s') ->
  exists a s1, m s = (Ok a, s1) /\ k a s1 = (Ok b, s').
Proof.
  unfold bind. destruct (m s) as [[a | e |] s1]; intros H; try discriminate.
  exists a, s1. split; [reflexivity | exact H].
Qed.

Lemma bind_Raise {S A B} (m : M S A) (k : A -> M S B) s e s' :
  bind m k s = (Raise e, s') ->
  m s = (Raise e, s') \/
  exists a s1, m s = (Ok a, s1) /\ k a s1 = (Raise e, s').
Proof.
  unfold bind. destruct (m s) as [[a | e0 |] s1]; intros H; try discriminate.
  - right. exists a, s1. split; [reflexivity | exact H].
  - left. inversion H. reflexivity.
Qed.

Lemma bind_step {S A B} (m : M S A) (k : A -> M S B) s a s1 :
  m s = (Ok a, s1) -> bind m k s = k a s1.
Proof. unfold bind. intros ->. reflexivity. Qed.

Lemma getitem_Ok {S} a t h (s : S) row s' :
  getitem a t h s = (Ok row, s') -> nth_error t h = Some row /\ s' = s.
Proof.
  unfold getitem. destruct (nth_error t h); cbv [ret raise]; intros H;
    inversion H; auto.
Qed.

Lemma getitem_Raise {S} a t h (s : S) e s' :
  getitem a t h s = (Raise e, s') ->
  nth_error t h = None /\ e = IndexError a h /\ s' = s.
Proof.
  unfold getitem. destruct (nth_error t h); cbv [ret raise]; intros H;
    inversion H; auto.
Qed.

Lemma getitem_Some {S} a t h (s : S) row :
  nth_error t h = Some row -> getitem a t h s = (Ok row, s).
Proof. unfold getitem. intros ->. reflexivity. Qed.

Lemma positive_at_spec p i : positive_at p i = true <-> (0 < nth i p 0)%Q.
Proof.
  unfold positive_at. rewrite negb_true_iff. split; intros H.
  - apply Qnot_le_lt. intros L. apply Qle_bool_iff in L. congruence.
  - destruct (Qle_bool (nth i p 0%Q) 0) eqn:E; [| reflexivity].
    apply Qle_bool_iff in E. exfalso. exact (Qlt_not_le _ _ H E).
Qed.

(** A positive entry lies inside the vector. *)
Lemma positive_in_range (p : list Q) i : (0 < nth i p 0)%Q -> i < length p.
Proof.
  intros H. destruct (Nat.lt_ge_cases i (length p)) as [L | L]; [exact L |].
  rewrite (nth_overflow p 0%Q L) in H. discriminate H.
Qed.

Lemma scripted_supported : supported scripted.
Proof.
  intros n p [| d rest] i g'; cbn; [discriminate |].
  destruct (positive_at p d) eqn:E; intros H; inversion H; subst.
  apply positive_at_spec. exact E.
Qed.

Lemma first_positive_spec p : forall k i,
  first_positive p k = Some i -> k <= i /\ (0 < nth (i - k) p 0)%Q.
Proof.
  induction p as [| x p IH]; intros k i; cbn; [discriminate |].
  destruct (Qle_bool x 0) eqn:E; cbn.
  - intros H. destruct (IH _ _ H) as [L P]. split; [lia |].
    replace (i - k) with (S (i - S k)) by lia. exact P.
  - intros H. inversion H; subst. split; [lia |].
    rewrite Nat.sub_diag. cbn. apply Qnot_le_lt. intros L.
    apply Qle_bool_iff in L. congruence.
Qed.

Lemma greedy_supported : supported greedy.
Proof.
  intros n p g i g'. unfold greedy. intros H. inversion H as [[E G]].
  destruct (first_positive_spec _ _ _ E) as [_ P].
  rewrite Nat.sub_0_r in P. exact P.
Qed.

Lemma logged_Some {rng} (choice : nat -> list Q -> rng -> option nat * rng)
    n p g l i g' l' :
  logged choice n p (g, l) = (Some i, (g', l')) ->
  choice n p g = (Some i, g') /\ l' = l ++ [Draw n p i].
Proof.
  unfold logged. destruct (choice n p g) as [[j |] g1]; intros H;
    inversion H; subst; auto.
Qed.

Lemma logged_supported {rng}
    (choice : nat -> list Q -> rng -> option nat * rng) :
  supported choice -> supported (logged choice).
Proof.
  intros Hs n p [g l] i [g' l'] H.
  apply logged_Some in H. destruct H as [H _]. exact (Hs _ _ _ _ _ H).
Qed.

Lemma random_choice_Ok {rng}
    (choice : nat -> list Q -> rng -> option nat * rng) n p g i g' :
  random_choice choice n p g = (Ok i, g') -> choice n p g = (Some i, g').
Proof.
  unfold random_choice. destruct (choice n p g) as [[j |] g1]; intros H;
    inversion H; reflexivity.
Qed.

Lemma random_choice_Raise {rng}
    (choice : nat -> list Q -> rng -> option nat * rng) n p g e g' :
  random_choice choice n p g = (Raise e, g') ->
  choice n p g = (None, g') /\ e = ValueError.
Proof.
  unfold random_choice. destruct (choice n p g) as [[j |] g1]; intros H;
    inversion H; auto.
Qed.

Lemma random_choice_Some {rng}
    (choice : nat -> list Q -> rng -> option nat * rng) n p g i g' :
  choice n p g = (Some i, g') -> random_choice choice n p g = (Ok i, g').
Proof. unfold random_choice. intros ->. reflexivity. Qed.

(** ** Terminating runs *)

Section Runs.

Variable rng : Type.
Variable choice : nat -> list Q -> rng -> option nat * rng.
Variables (N W : nat) (tr em : list (list Q)).

(** The lists the loop is entered with are only ever extended. *)
Lemma while_loop_acc fuel : forall h ht vt g,
  while_loop choice fuel N W tr em h ht vt g =
  match while_loop choice fuel N W tr em h [] [] g with
  | (Ok (hf, hs, vs), g') => (Ok (hf, ht ++ hs, vt ++ vs), g')
  | (Raise e, g') => (Raise e, g')
  | (Diverge, g') => (Diverge, g')
  end.
Proof.
  induction fuel as [| fuel IH]; intros h ht vt g; cbn [while_loop];
    destruct (Nat.eqb h EOS); cbv [ret diverge];
    rewrite ?app_nil_r; try reflexivity.
  unfold bind.
  destruct (getitem Emission em h g) as [[p | e |] g0]; try reflexivity.
  destruct (random_choice choice W p g0) as [[v | e |] g1];
    try reflexivity.
  destruct (getitem Transition tr h g1) as [[q | e |] g2]; try reflexivity.
  destruct (random_choice choice N q g2) as [[h' | e |] g3];
    try reflexivity.
  rewrite (IH h' (ht ++ [h']) (vt ++ [v])).
  rewrite (IH h' ([] ++ [h']) ([] ++ [v])).
  destruct (while_loop choice fuel N W tr em h' [] [] g3)
    as [[[[hf hs] vs] | e |] g4]; try reflexivity.
  rewrite <- !app_assoc. reflexivity.
Qed.

Lemma while_loop_exit fuel : forall h ht vt g hf ht' vt' g',
  while_loop choice fuel N W tr em h ht vt g = (Ok (hf, ht', vt'), g') ->
  hf = EOS.
Proof.
  induction fuel as [| fuel IH]; intros h ht vt g hf ht' vt' g';
    cbn [while_loop]; destruct (Nat.eqb_spec h EOS) as [E | E];
    cbv [ret diverge]; intros H; try (inversion H; congruence).
  apply bind_Ok in H. destruct H as (p & g0 & _ & H).
  apply bind_Ok in H. destruct H as (v & g1 & _ & H).
  apply bind_Ok in H. destruct H as (q & g2 & _ & H).
  apply bind_Ok in H. destruct H as (h' & g3 & _ & H).
  exact (IH _ _ _ _ _ _ _ _ H).
Qed.

(** A loop that exits, followed by the emission of the last state, is a
    run of at most [fuel] transitions. *)
Lemma while_loop_steps fuel : forall h g hf hs vs g1 p v g',
  while_loop choice fuel N W tr em h [] [] g = (Ok (hf, hs, vs), g1) ->
  nth_error em hf = Some p -> choice W p g1 = (Some v, g') ->
  steps choice N W tr em h g hs (vs ++ [v]) g' /\ length hs <= fuel.
Proof.
  induction fuel as [| fuel IH]; intros h g hf hs vs g1 p v g';
    cbn [while_loop]; destruct (Nat.eqb_spec h EOS) as [E | E];
    cbv [ret diverge]; intros H Hp Hv; try discriminate;
    try (inversion H; subst; split; [eapply steps_stop; eauto | cbn; lia]).
  apply bind_Ok in H. destruct H as (p0 & g0 & H0 & H).
  apply getitem_Ok in H0. destruct H0 as [H0 ->].
  apply bind_Ok in H. destruct H as (v0 & g2 & Hv0 & H).
  apply random_choice_Ok in Hv0.
  apply bind_Ok in H. destruct H as (q & g3 & Hq & H).
  apply getitem_Ok in Hq. destruct Hq as [Hq ->].
  apply bind_Ok in H. destruct H as (h' & g4 & Hh' & H).
  apply random_choice_Ok in Hh'.
  rewrite while_loop_acc in H.
  destruct (while_loop choice fuel N W tr em h' [] [] g4)
    as [[[[hf' hs'] vs'] | e |] g5] eqn:L; try discriminate.
  inversion H; subst. clear H.
  destruct (IH _ _ _ _ _ _ _ _ _ L Hp Hv) as [St Le].
  split; [| cbn; lia].
  cbn. eapply steps_go; eauto.
Qed.

(** Conversely a run is computed by the loop, given fuel for its
    transitions. *)
Lemma steps_while_loop h g hs vs g' :
  steps choice N W tr em h g hs vs g' ->
  forall fuel, length hs <= fuel ->
  exists vs0 v p g1,
    vs = vs0 ++ [v] /\
    while_loop choice fuel N W tr em h [] [] g = (Ok (EOS, hs, vs0), g1) /\
    nth_error em EOS = Some p /\ choice W p g1 = (Some v, g').
Proof.
  induction 1 as [h g p v g' E Hp Hv
                 | h g p v g1 q h' g2 hs vs g' E Hp Hv Hq Hh' _ IH];
    intros fuel Le.
  - subst h. exists [], v, p, g. repeat split; auto.
    destruct fuel; reflexivity.
  - destruct fuel as [| fuel]; [cbn in Le; lia |].
    destruct (IH fuel) as (vs0 & v1 & p1 & g3 & -> & L & Hp1 & Hv1);
      [cbn in Le; lia |].
    exists (v :: vs0), v1, p1, g3. repeat split; auto.
    cbn [while_loop]. destruct (Nat.eqb_spec h EOS) as [E' | _];
      [contradiction |].
    rewrite (bind_step _ _ _ _ _ (getitem_Some Emission em h g _ Hp)).
    rewrite (bind_step _ _ _ _ _ (random_choice_Some _ _ _ _ _ _ Hv)).
    rewrite (bind_step _ _ _ _ _ (getitem_Some Transition tr h g1 _ Hq)).
    rewrite (bind_step _ _ _ _ _ (random_choice_Some _ _ _ _ _ _ Hh')).
    rewrite while_loop_acc, L. reflexivity.
Qed.

(** *** What every run satisfies *)

Lemma steps_length h g hs vs g' :
  steps choice N W tr em h g hs vs g' -> length vs = S (length hs).
Proof. induction 1; cbn; congruence. Qed.

(** The states of a run end with [<EOS>], which occurs nowhere before. *)
Lemma steps_terminal h g hs vs g' :
  steps choice N W tr em h g hs vs g' ->
  exists pre, h :: hs = pre ++ [EOS] /\ ~ In EOS pre.
Proof.
  induction 1 as [h g p v g' E _ _
                 | h g p v g1 q h' g2 hs vs g' E _ _ _ _ _ IH].
  - exists []. subst h. split; [reflexivity | intros []].
  - destruct IH as (pre & -> & Hn). exists (h :: pre).
    split; [reflexivity |]. intros [F | F]; [congruence | contradiction].
Qed.

(** Each word of a run was drawn from the emission row of the state at
    the same position. *)
Lemma steps_emitted h g hs vs g' :
  steps choice N W tr em h g hs vs g' ->
  Forall2 (fun s v => exists p g1 g2,
             nth_error em s = Some p /\ choice W p g1 = (Some v, g2))
          (h :: hs) vs.
Proof.
  induction 1; constructor; eauto.
Qed.

(** Each state after the first was drawn from the transition row of the
    state before it, which is not [<EOS>]. *)
Lemma steps_moved h g hs vs g' :
  steps choice N W tr em h g hs vs g' ->
  forall k s, nth_error (h :: hs) k = Some s -> k < length hs ->
  s <> EOS /\
  exists q t g1 g2,
    nth_error tr s = Some q /\ nth_error hs k = Some t /\
    choice N q g1 = (Some t, g2).
Proof.
  induction 1 as [h g p v g' E _ _
                 | h g p v g1 q h' g2 hs vs g' E _ _ Hq Hh' _ IH];
    intros k s Hk Lt; [cbn in Lt; lia |].
  destruct k as [| k].
  - cbn in Hk. inversion Hk; subst. split; [exact E |].
    exists q, h', g1, g2. auto.
  - cbn in Hk, Lt. cbn [nth_error]. apply IH; [exact Hk | lia].
Qed.

End Runs.

(** ** Calls of [generate] that return *)

(** A call that returns is a draw from [initial] followed by a run. *)
Lemma generate_Ok {rng} (choice : nat -> list Q -> rng -> option nat * rng)
    fuel init tr em g h_total v_total g' :
  generate choice fuel init tr em g = (Ok (h_total, v_total), g') ->
  exists row em' h0 g1 hs,
    em = row :: em' /\
    choice (length init) init g = (Some h0, g1) /\
    h_total = h0 :: hs /\
    steps choice (length init) (length row) tr em h0 g1 hs v_total g' /\
    length hs <= fuel.
Proof.
  unfold generate. intros H.
  apply bind_Ok in H. destruct H as (W & g0 & HW & H).
  destruct em as [| row em']; [discriminate HW |].
  cbv [shape1 ret] in HW. inversion HW; subst W g0. clear HW.
  apply bind_Ok in H. destruct H as (h0 & g1 & Hh0 & H).
  apply random_choice_Ok in Hh0.
  apply bind_Ok in H. destruct H as ([[hf ht] vt] & g2 & L & H).
  rewrite while_loop_acc in L.
  destruct (while_loop choice fuel (length init) (length row) tr
              (row :: em') h0 [] [] g1) as [[[[hf' hs] vs] | e |] g3] eqn:L0;
    try discriminate.
  inversion L; subst. clear L.
  apply bind_Ok in H. destruct H as (p & g4 & Hp & H).
  apply getitem_Ok in Hp. destruct Hp as [Hp ->].
  apply bind_Ok in H. destruct H as (v & g5 & Hv & H).
  apply random_choice_Ok in Hv.
  cbv [ret] in H. inversion H; subst. clear H.
  edestruct while_loop_steps as [St Le]; [exact L0 | exact Hp | exact Hv |].
  exists row, em', h0, g1, hs. auto.
Qed.

(** Conversely, with fuel for the transitions of the run, the call
    returns it. *)
Lemma run_generate {rng} (choice : nat -> list Q -> rng -> option nat * rng)
    init tr row em' g h0 g1 hs vs g' fuel :
  choice (length init) init g = (Some h0, g1) ->
  steps choice (length init) (length row) tr (row :: em') h0 g1 hs vs g' ->
  length hs <= fuel ->
  generate choice fuel init tr (row :: em') g = (Ok (h0 :: hs, vs), g').
Proof.
  intros Hh0 St Le.
  destruct (steps_while_loop _ _ _ _ _ _ _ _ _ _ _ St fuel Le)
    as (vs0 & v & p & g2 & -> & L & Hp & Hv).
  unfold generate. cbv [shape1].
  rewrite (bind_step _ _ _ _ _ (eq_refl : ret (length row) g = (Ok _, g))).
  rewrite (bind_step _ _ _ _ _ (random_choice_Some _ _ _ _ _ _ Hh0)).
  rewrite (bind_step (while_loop _ _ _ _ _ _ _ _ _) _ _
             (EOS, [h0] ++ hs, [] ++ vs0) g2)
    by (rewrite while_loop_acc, L; reflexivity).
  rewrite (bind_step _ _ _ _ _ (getitem_Some Emission _ _ g2 _ Hp)).
  rewrite (bind_step _ _ _ _ _ (random_choice_Some _ _ _ _ _ _ Hv)).
  reflexivity.
Qed.

(** In a run every state drawn lies inside the transition row it was drawn
    from, and every word inside its emission row. *)
Lemma steps_bounds {rng} (choice : nat -> list Q -> rng -> option nat * rng)
    N W tr em A B h g hs vs g' :
  supported choice ->
  Forall (fun q => length q = A) tr ->
  Forall (fun p => length p = B) em ->
  steps choice N W tr em h g hs vs g' ->
  Forall (fun s => s < A) hs /\ Forall (fun v => v < B) vs.
Proof.
  intros Hs Htr Hem. rewrite Forall_forall in Htr, Hem.
  induction 1 as [h g p v g' E Hp Hv
                 | h g p v g1 q h' g2 hs vs g' E Hp Hv Hq Hh' _ IH].
  - split; constructor; auto.
    rewrite <- (Hem p (nth_error_In _ _ Hp)).
    exact (positive_in_range _ _ (Hs _ _ _ _ _ Hv)).
  - destruct IH as [IH1 IH2]. split; constructor; auto.
    + rewrite <- (Htr q (nth_error_In _ _ Hq)).
      exact (positive_in_range _ _ (Hs _ _ _ _ _ Hh')).
    + rewrite <- (Hem p (nth_error_In _ _ Hp)).
      exact (positive_in_range _ _ (Hs _ _ _ _ _ Hv)).
Qed.

(** A call that returns with some fuel returns the same with more. *)
Lemma generate_fuel_mono {rng}
    (choice : nat -> list Q -> rng -> option nat * rng)
    fuel fuel' init tr em g r g' :
  generate choice fuel init tr em g = (Ok r, g') ->
  fuel <= fuel' ->
  generate choice fuel' init tr em g = (Ok r, g').
Proof.
  destruct r as [h_total v_total]. intros H Le.
  apply generate_Ok in H.
  destruct H as (row & em' & h0 & g1 & hs & -> & Hh0 & -> & St & Le0).
  apply (run_generate _ _ _ _ _ _ _ _ _ _ _ _ Hh0 St). lia.
Qed.

(** ** The calls of the scenario *)

Lemma EOS_lookup : dict_find state2id "<EOS>" = Some EOS.
Proof. reflexivity. Qed.

Lemma generate_scenario fuel :
  generate scripted (3 + fuel) initial transition emission scenario
  = (Ok ([0; 3; 4; 5], [0; 4; 13; 14]), []).
Proof. destruct fuel; reflexivity. Qed.

(** With fuel for two turns the call is still in its loop, at Object, three
    draws short of the end. *)
Example generate_short_of_fuel :
  generate scripted 2 initial transition emission scenario
  = (Diverge, [13; 5; 14]).
Proof. reflexivity. Qed.

(** A draw of <EOS> from the row of Subject, where it has no probability,
    is refused. *)
Example generate_refused_draw :
  generate scripted 3 initial transition emission [0; 0; 5]
  = (Raise ValueError, []).
Proof. reflexivity. Qed.

(** Without the row of Object the lookup [transition[4]] fails. *)
Example generate_missing_row :
  generate scripted 3 initial (firstn 4 transition) emission scenario
  = (Raise (IndexError Transition 4), [5; 14]).
Proof. reflexivity. Qed.

(** ** Trajectories *)

(** C1.  For a sampler that returns only indices of positive probability
    and tables over the six states and the fifteen words, every call of
    [generate] that returns gives a state sequence that ends with 5
    ([<EOS>]) and holds no 5 before, whose elements are all below 6, and a
    word sequence whose elements are all below 15. *)
Theorem generate_well_formed {rng}
    (choice : nat -> list Q -> rng -> option nat * rng)
    fuel init tr em g h_total v_total g' :
  supported choice ->
  length init = 6 ->
  Forall (fun q => length q = 6) tr ->
  Forall (fun p => length p = 15) em ->
  generate choice fuel init tr em g = (Ok (h_total, v_total), g') ->
  (exists earlier, h_total = earlier ++ [5] /\ ~ In 5 earlier) /\
  Forall (fun h => h < 6) h_total /\
  Forall (fun v => v < 15) v_total.
Proof.
  intros Hs Hi Htr Hem H.
  apply generate_Ok in H.
  destruct H as (row & em' & h0 & g1 & hs & -> & Hh0 & -> & St & _).
  split; [eapply steps_terminal; exact St |].
  destruct (steps_bounds choice _ _ _ _ 6 15 _ _ _ _ _ Hs Htr Hem St)
    as [B1 B2].
  split; [| exact B2]. constructor; [| exact B1].
  rewrite <- Hi. exact (positive_in_range _ _ (Hs _ _ _ _ _ Hh0)).
Qed.

(** The call of the scenario is such a call. *)
Lemma generate_well_formed_scenario :
  (exists earlier, [0; 3; 4; 5] = earlier ++ [5] /\ ~ In 5 earlier) /\
  Forall (fun h => h < 6) [0; 3; 4; 5] /\
  Forall (fun v => v < 15) [0; 4; 13; 14].
Proof.
  apply (generate_well_formed scripted 3 initial transition emission
           scenario [0; 3; 4; 5] [0; 4; 13; 14] [] scripted_supported).
  - reflexivity.
  - repeat constructor.
  - repeat constructor.
  - reflexivity.
Defined.

(** C10.  The two lists returned by [generate] have the same length, which
    is at least one. *)
Theorem generate_lengths {rng}
    (choice : nat -> list Q -> rng -> option nat * rng)
    fuel init tr em g h_total v_total g' :
  generate choice fuel init tr em g = (Ok (h_total, v_total), g') ->
  length h_total = length v_total /\ 1 <= length v_total.
Proof.
  intros H. apply generate_Ok in H.
  destruct H as (row & em' & h0 & g1 & hs & -> & Hh0 & -> & St & _).
  apply steps_length in St. cbn. split; lia.
Qed.

(** The call of the scenario returns four states and four words. *)
Lemma generate_lengths_scenario :
  length [0; 3; 4; 5] = length [0; 4; 13; 14] /\
  1 <= length [0; 4; 13; 14].
Proof.
  apply (generate_lengths scripted 3 initial transition emission scenario
           [0; 3; 4; 5] [0; 4; 13; 14] []).
  reflexivity.
Defined.

(** *** Reads of [transition] *)

(** While the current state is at most [<EOS>] and [transition] has a row
    for every state below it, the loop raises no [IndexError] on
    [transition]. *)
Lemma while_loop_transition_in_bounds {rng}
    (choice : nat -> list Q -> rng -> option nat * rng) N W tr em :
  supported choice ->
  Forall (fun q => length q = S EOS) tr ->
  EOS <= length tr ->
  forall fuel h ht vt g i g',
    h <= EOS ->
    while_loop choice fuel N W tr em h ht vt g
    <> (Raise (IndexError Transition i), g').
Proof.
  intros Hs Htr Hrows. rewrite Forall_forall in Htr.
  induction fuel as [| fuel IH]; intros h ht vt g i g' Hh;
    cbn [while_loop]; destruct (Nat.eqb_spec h EOS) as [E | E];
    cbv [ret diverge]; try discriminate.
  intros H.
  apply bind_Raise in H. destruct H as [H | (p & g0 & _ & H)].
  { apply getitem_Raise in H. destruct H as (_ & H & _). discriminate H. }
  apply bind_Raise in H. destruct H as [H | (v & g1 & _ & H)].
  { apply random_choice_Raise in H. destruct H as [_ H]. discriminate H. }
  apply bind_Raise in H. destruct H as [H | (q & g2 & Hq & H)].
  { apply getitem_Raise in H. destruct H as (H & _ & _).
    apply nth_error_None in H. lia. }
  apply getitem_Ok in Hq. destruct Hq as [Hq ->].
  apply bind_Raise in H. destruct H as [H | (h' & g3 & Hh' & H)].
  { apply random_choice_Raise in H. destruct H as [_ H]. discriminate H. }
  apply random_choice_Ok in Hh'.
  apply (IH h' _ _ _ _ _) in H; [exact H |].
  pose proof (positive_in_range _ _ (Hs _ _ _ _ _ Hh')) as L.
  rewrite (Htr q (nth_error_In _ _ Hq)) in L. lia.
Qed.

(** C9.  With six states and a transition table of five rows, [generate]
    never subscripts [transition] out of bounds, whatever the fuel and the
    outcome of the call: the row of [<EOS>], which the table lacks, is not
    read. *)
Theorem transition_never_out_of_bounds {rng}
    (choice : nat -> list Q -> rng -> option nat * rng)
    fuel init tr em g i g' :
  supported choice ->
  length init = 6 ->
  Forall (fun q => length q = 6) tr ->
  length tr = 5 ->
  generate choice fuel init tr em g <> (Raise (IndexError Transition i), g').
Proof.
  intros Hs Hi Htr Hrows H. unfold generate in H.
  apply bind_Raise in H. destruct H as [H | (W & g0 & _ & H)].
  { destruct em; cbv [shape1 ret raise] in H; discriminate H. }
  apply bind_Raise in H. destruct H as [H | (h0 & g1 & Hh0 & H)].
  { apply random_choice_Raise in H. destruct H as [_ H]. discriminate H. }
  apply random_choice_Ok in Hh0.
  apply bind_Raise in H. destruct H as [H | ([[hf ht] vt] & g2 & _ & H)].
  { revert H. apply while_loop_transition_in_bounds; auto.
    - rewrite Hrows. apply Nat.le_refl.
    - pose proof (positive_in_range _ _ (Hs _ _ _ _ _ Hh0)) as L.
      rewrite Hi in L. apply Nat.lt_succ_r. exact L. }
  apply bind_Raise in H. destruct H as [H | (p & g3 & _ & H)].
  { apply getitem_Raise in H. destruct H as (_ & H & _). discriminate H. }
  apply bind_Raise in H. destruct H as [H | (v & g4 & _ & H)].
  { apply random_choice_Raise in H. destruct H as [_ H]. discriminate H. }
  discriminate H.
Qed.

(** The tables of the notebook have this shape. *)
Lemma transition_never_out_of_bounds_scenario :
  generate scripted 3 initial transition emission scenario
  <> (Raise (IndexError Transition 5), []).
Proof.
  apply (transition_never_out_of_bounds scripted 3 initial transition
           emission scenario 5 [] scripted_supported).
  - reflexivity.
  - repeat constructor.
  - reflexivity.
Defined.

(** *** Rows with a single entry *)

Lemma one_hot_draw {rng} (choice : nat -> list Q -> rng -> option nat * rng)
    j p n g i g' :
  supported choice -> one_hot j p ->
  choice n p g = (Some i, g') -> i = j.
Proof.
  intros Hs [_ Hz] H. apply Hs in H.
  destruct (Nat.eq_dec i j) as [E | E]; [exact E |].
  rewrite (Hz i E) in H. discriminate H.
Qed.

Lemma Forall2_nth_error {A B} (P : A -> B -> Prop) l l' :
  Forall2 P l l' ->
  forall k a, nth_error l k = Some a ->
  exists b, nth_error l' k = Some b /\ P a b.
Proof.
  induction 1 as [| x y l l' Hxy _ IH]; intros k a Hk.
  - destruct k; discriminate Hk.
  - destruct k as [| k]; cbn in Hk.
    + inversion Hk; subst. exists y. split; [reflexivity | exact Hxy].
    + exact (IH k a Hk).
Qed.

Lemma Object_row_one_hot : forall q,
  nth_error transition 4 = Some q -> one_hot 5 q.
Proof.
  intros q H. inversion H; subst. split; [reflexivity |].
  intros i Hi. do 6 (destruct i as [| i]; [try reflexivity; congruence |]).
  destruct i; reflexivity.
Qed.

Lemma EOS_row_one_hot : forall p,
  nth_error emission 5 = Some p -> one_hot 14 p.
Proof.
  intros p H. inversion H; subst. split; [reflexivity |].
  intros i Hi. do 15 (destruct i as [| i]; [try reflexivity; congruence |]).
  destruct i; reflexivity.
Qed.

(** C8.  Let the transition row of a state [s] other than [<EOS>] be 1 at
    [j] and 0 elsewhere, and the emission row of a state [s'] be 1 at [w]
    and 0 elsewhere.  A sampler that returns only indices of positive
    probability returns [j] at every draw from the first row and [w] at
    every draw from the second; and in every trajectory that [generate]
    returns, each occurrence of [s] is followed by [j] and each occurrence
    of [s'] emits [w].  For the tables of the notebook: Object (4) is
    followed by <EOS> (5), and <EOS> emits "." (14). *)
Theorem single_entry_rows_are_deterministic {rng}
    (choice : nat -> list Q -> rng -> option nat * rng)
    fuel init tr em g h_total v_total g' s j q s' w p :
  supported choice ->
  nth_error tr s = Some q -> one_hot j q -> s <> EOS ->
  nth_error em s' = Some p -> one_hot w p ->
  generate choice fuel init tr em g = (Ok (h_total, v_total), g') ->
  (forall n g0 i g1, choice n q g0 = (Some i, g1) -> i = j) /\
  (forall n g0 v g1, choice n p g0 = (Some v, g1) -> v = w) /\
  (forall k, nth_error h_total k = Some s ->
             nth_error h_total (S k) = Some j) /\
  (forall k, nth_error h_total k = Some s' ->
             nth_error v_total k = Some w).
Proof.
  intros Hs Hq Oq Hne Hp Op H.
  split; [intros n g0 i g1; apply one_hot_draw; assumption |].
  split; [intros n g0 v g1; apply one_hot_draw; assumption |].
  apply generate_Ok in H.
  destruct H as (row & em' & h0 & g1 & hs & -> & Hh0 & -> & St & _).
  split; intros k Hk.
  - assert (Lt : k < length hs).
    { destruct (steps_terminal _ _ _ _ _ _ _ _ _ _ _ St)
        as (earlier & E & Hn).
      assert (Len : length (h0 :: hs) = length (earlier ++ [EOS]))
        by (rewrite E; reflexivity).
      rewrite length_app in Len. cbn in Len.
      destruct (Nat.lt_ge_cases k (length hs)) as [L | L]; [exact L |].
      exfalso. rewrite E in Hk.
      assert (Hk' : k < length (earlier ++ [EOS]))
        by (apply nth_error_Some; congruence).
      rewrite length_app in Hk'. cbn in Hk'.
      assert (k = length earlier) by lia. subst k.
      rewrite nth_error_app2, Nat.sub_diag in Hk by lia.
      cbn in Hk. congruence. }
    destruct (steps_moved _ _ _ _ _ _ _ _ _ _ _ St k s Hk Lt)
      as (_ & q' & t & ga & gb & Hq' & Ht & Hd).
    rewrite Hq in Hq'. inversion Hq'; subst q'.
    cbn [nth_error]. rewrite Ht. f_equal.
    exact (one_hot_draw _ _ _ _ _ _ _ Hs Oq Hd).
  - destruct (Forall2_nth_error _ _ _
                (steps_emitted _ _ _ _ _ _ _ _ _ _ _ St) k s' Hk)
      as (v & Hv & p' & ga & gb & Hp' & Hd).
    rewrite Hp in Hp'. inversion Hp'; subst p'.
    rewrite Hv. f_equal. exact (one_hot_draw _ _ _ _ _ _ _ Hs Op Hd).
Qed.

(** The rows of Object in [transition] and of <EOS> in [emission], and the
    call of the scenario. *)
Lemma single_entry_rows_scenario :
  (forall n g0 i g1,
     scripted n [0.0; 0.0; 0.0; 0.0; 0.0; 1.0]%Q g0 = (Some i, g1) -> i = 5) /\
  (forall n g0 v g1,
     scripted n [0; 0; 0; 0; 0; 0; 0; 0; 0; 0; 0; 0; 0; 0; 1.0]%Q g0
     = (Some v, g1) -> v = 14) /\
  (forall k, nth_error [0; 3; 4; 5] k = Some 4 ->
             nth_error [0; 3; 4; 5] (S k) = Some 5) /\
  (forall k, nth_error [0; 3; 4; 5] k = Some 5 ->
             nth_error [0; 4; 13; 14] k = Some 14).
Proof.
  apply (single_entry_rows_are_deterministic scripted 3 initial transition
           emission scenario [0; 3; 4; 5] [0; 4; 13; 14] []
           4 5 _ 5 14 _ scripted_supported eq_refl).
  - apply Object_row_one_hot. reflexivity.
  - discriminate.
  - reflexivity.
  - apply EOS_row_one_hot. reflexivity.
  - reflexivity.
Defined.

(** *** The trajectory as a function of the draws *)

Lemma alternate_weave hs : forall h vs,
  length vs = S (length hs) ->
  alternate (h :: weave vs hs) = (h :: hs, vs).
Proof.
  induction hs as [| h' hs IH]; intros h vs Len.
  - destruct vs as [| v [| v' vs]]; try discriminate Len. reflexivity.
  - destruct vs as [| v vs]; [discriminate Len |].
    cbn in Len. injection Len as Len.
    cbn [weave]. change (alternate (h :: v :: h' :: weave vs hs))
      with (let (a, b) := let (a, b) := alternate (h' :: weave vs hs)
                          in (v :: b, a) in (h :: b, a)).
    rewrite (IH h' vs Len). reflexivity.
Qed.

(** The record of a run holds its words and states, as drawn. *)
Lemma steps_logged {rng} (choice : nat -> list Q -> rng -> option nat * rng)
    N W tr em h gl hs vs gl' :
  steps (logged choice) N W tr em h gl hs vs gl' ->
  map draw_i (snd gl') = map draw_i (snd gl) ++ weave vs hs.
Proof.
  induction 1 as [h [g l] p v [g' l'] E Hp Hv
                 | h [g l] p v [g1 l1] q h' [g2 l2] hs vs gl' E Hp Hv Hq Hh'
                     St IH].
  - apply logged_Some in Hv. destruct Hv as [_ ->].
    cbn [snd]. rewrite map_app. reflexivity.
  - apply logged_Some in Hv. destruct Hv as [_ ->].
    apply logged_Some in Hh'. destruct Hh' as [_ ->].
    rewrite IH. cbn [snd]. rewrite !map_app, <- !app_assoc.
    cbn [map draw_i app]. apply steps_length in St.
    destruct vs as [| v' vs]; [discriminate St |]. reflexivity.
Qed.

(** The trajectory returned is read off the draws of the call: the states
    are the draws at the even positions, the words those at the odd
    positions. *)
Lemma generate_logged {rng}
    (choice : nat -> list Q -> rng -> option nat * rng)
    fuel init tr em g h_total v_total g' log :
  generate (logged choice) fuel init tr em (g, [])
  = (Ok (h_total, v_total), (g', log)) ->
  alternate (map draw_i log) = (h_total, v_total).
Proof.
  intros H. apply generate_Ok in H.
  destruct H as (row & em' & h0 & [g1 l1] & hs & -> & Hh0 & -> & St & _).
  apply logged_Some in Hh0. destruct Hh0 as [_ ->].
  pose proof (steps_logged _ _ _ _ _ _ _ _ _ _ St) as L. cbn [snd] in L.
  rewrite L. cbn [map draw_i app].
  apply alternate_weave. exact (steps_length _ _ _ _ _ _ _ _ _ _ _ St).
Qed.

(** C7.  Two calls of [generate] on the same tables, each with a sampler
    and a generator state of its own, that return after the same sequence
    of draws return the same trajectory. *)
Theorem generate_deterministic {rng1 rng2}
    (choice1 : nat -> list Q -> rng1 -> option nat * rng1)
    (choice2 : nat -> list Q -> rng2 -> option nat * rng2)
    fuel1 fuel2 init tr em g1 g2
    h_total1 v_total1 g1' log1 h_total2 v_total2 g2' log2 :
  generate (logged choice1) fuel1 init tr em (g1, [])
  = (Ok (h_total1, v_total1), (g1', log1)) ->
  generate (logged choice2) fuel2 init tr em (g2, [])
  = (Ok (h_total2, v_total2), (g2', log2)) ->
  map draw_i log1 = map draw_i log2 ->
  h_total1 = h_total2 /\ v_total1 = v_total2.
Proof.
  intros H1 H2 E.
  apply generate_logged in H1. apply generate_logged in H2.
  rewrite E in H1. rewrite H1 in H2. inversion H2. split; reflexivity.
Qed.

(** Two calls of the scenario, the second with a longer script and more
    fuel. *)
Lemma generate_deterministic_scenario :
  [0; 3; 4; 5] = [0; 3; 4; 5] /\ [0; 4; 13; 14] = [0; 4; 13; 14].
Proof.
  apply (generate_deterministic scripted scripted 3 7 initial transition
           emission scenario (scenario ++ [2; 9])
           [0; 3; 4; 5] [0; 4; 13; 14] [] scenario_log
           [0; 3; 4; 5] [0; 4; 13; 14] [2; 9] scenario_log).
  - reflexivity.
  - reflexivity.
  - reflexivity.
Defined.

(** *** The scenario *)

(** C5.  With the draws scripted as Subject (0), "I" (0), Verb (3),
    "likes" (4), Object (4), "dogs" (13), <EOS> (5), "." (14), [generate]
    on the tables of the notebook returns [[0, 3, 4, 5]] and
    [[0, 4, 13, 14]] given fuel for three transitions; the words join to
    "I likes dogs ."; and each draw has positive probability in the vector
    it is drawn from. *)
Theorem scenario_trajectory :
  (forall fuel,
     generate scripted (3 + fuel) initial transition emission scenario
     = (Ok ([0; 3; 4; 5], [0; 4; 13; 14]), [])) /\
  labels id2state [0; 3; 4; 5]
  = Some ["Subject"; "Verb"; "Object"; "<EOS>"]%string /\
  labels id2word [0; 4; 13; 14] = Some ["I"; "likes"; "dogs"; "."]%string /\
  render id2word [0; 4; 13; 14] = Some "I likes dogs ."%string /\
  generate (logged scripted) 3 initial transition emission (scenario, [])
  = (Ok ([0; 3; 4; 5], [0; 4; 13; 14]), ([], scenario_log)) /\
  Forall (fun d => (0 < nth (draw_i d) (draw_p d) 0)%Q) scenario_log.
Proof.
  split; [exact generate_scenario |].
  repeat (split; [reflexivity |]).
  repeat constructor.
Qed.

(** *** The tables *)

Lemma binary64_literals :
  binary64 0.7%Q = 0x1.6666666666666p-1%float /\
  binary64 0.25%Q = 0x1p-2%float /\
  binary64 1.0%Q = PrimFloat.one.
Proof. repeat split; reflexivity. Qed.

(** C6.  No entry of [initial], [transition] or [emission] is negative;
    [initial], the five rows of [transition] and the six rows of
    [emission] each sum to 1 as rationals, hence within 1e-6; and in
    double precision, added from left to right, each sum is within 1e-6
    of 1. *)
Theorem tables_row_stochastic :
  (Forall (Qle 0) initial /\
   Forall (Forall (Qle 0)) transition /\
   Forall (Forall (Qle 0)) emission) /\
  ((row_sum initial == 1)%Q /\
   length transition = 5 /\
   Forall (fun q => (row_sum q == 1)%Q) transition /\
   length emission = 6 /\
   Forall (fun p => (row_sum p == 1)%Q) emission) /\
  Forall (fun p => (Qabs (row_sum p - 1) <= 1e-6)%Q)
         (initial :: transition ++ emission) /\
  Forall (fun p => close_to_one (float_sum p) = true)
         (initial :: transition ++ emission).
Proof.
  repeat split;
    repeat (apply Forall_cons || apply Forall_nil);
    try reflexivity; try (intro H; discriminate H).
Qed.

(** *** The algorithm of the specification *)

Section Refinement.

Variable rng : Type.
Variable choice : nat -> list Q -> rng -> option nat * rng.
Variables (N W : nat) (tr em : list (list Q)).
Hypothesis tr_columns : Forall (fun q => length q = N) tr.
Hypothesis em_columns : Forall (fun p => length p = W) em.

Lemma algorithm_loop_acc fuel : forall t h T g,
  algorithm_loop choice fuel t tr em h T g =
  match algorithm_loop choice fuel t tr em h [] g with
  | (Ok T', g') => (Ok (T ++ T'), g')
  | (Raise e, g') => (Raise e, g')
  | (Diverge, g') => (Diverge, g')
  end.
Proof.
  induction fuel as [| fuel IH]; intros t h T g; cbn [algorithm_loop];
    [reflexivity |].
  unfold bind.
  destruct (getitem Emission em h g) as [[p | e |] g0]; try reflexivity.
  destruct (categorical choice p g0) as [[v | e |] g1]; try reflexivity.
  destruct (Nat.eqb h t); [reflexivity |].
  destruct (getitem Transition tr h g1) as [[q | e |] g2]; try reflexivity.
  destruct (categorical choice q g2) as [[h' | e |] g3]; try reflexivity.
  rewrite (IH t h' (T ++ [(h, v)])). rewrite (IH t h' ([] ++ [(h, v)])).
  destruct (algorithm_loop choice fuel t tr em h' [] g3)
    as [[T' | e |] g4]; try reflexivity.
  rewrite <- app_assoc. reflexivity.
Qed.

Lemma algorithm_loop_unfold fuel t h T :
  algorithm_loop choice (S fuel) t tr em h T =
  (p <- getitem Emission em h ;;
   observation <- categorical choice p ;;
   let trajectory := T ++ [(h, observation)] in
   if Nat.eqb h t then ret trajectory
   else
     q <- getitem Transition tr h ;;
     next <- categorical choice q ;;
     algorithm_loop choice fuel t tr em next trajectory).
Proof. reflexivity. Qed.

Lemma emission_draw h g :
  (p <- getitem Emission em h ;; categorical choice p) g
  = (p <- getitem Emission em h ;; random_choice choice W p) g.
Proof.
  unfold bind, getitem. destruct (nth_error em h) as [p |] eqn:E;
    cbv [ret raise]; [| reflexivity].
  unfold categorical. rewrite Forall_forall in em_columns.
  rewrite (em_columns p (nth_error_In _ _ E)). reflexivity.
Qed.

Lemma transition_draw h g :
  (q <- getitem Transition tr h ;; categorical choice q) g
  = (q <- getitem Transition tr h ;; random_choice choice N q) g.
Proof.
  unfold bind, getitem. destruct (nth_error tr h) as [q |] eqn:E;
    cbv [ret raise]; [| reflexivity].
  unfold categorical. rewrite Forall_forall in tr_columns.
  rewrite (tr_columns q (nth_error_In _ _ E)). reflexivity.
Qed.

(** The loop of [generate] followed by the last emission does what the
    loop of the algorithm does in one more turn. *)
Lemma while_loop_algorithm fuel : forall h g,
  match (x <- while_loop choice fuel N W tr em h [] [] ;;
         finish choice W em x) g with
  | (Ok (hs, vs), g') =>
      algorithm_loop choice (S fuel) EOS tr em h [] g
      = (Ok (combine (h :: hs) vs), g')
  | (Raise e, g') =>
      algorithm_loop choice (S fuel) EOS tr em h [] g = (Raise e, g')
  | (Diverge, _) =>
      forall T g', algorithm_loop choice (S fuel) EOS tr em h [] g
                   <> (Ok T, g')
  end.
Proof.
  induction fuel as [| fuel IH]; intros h g.
  - cbn [while_loop algorithm_loop].
    pose proof (emission_draw h g) as Ed. unfold bind in Ed |- *.
    destruct (Nat.eqb h EOS); cbv [ret diverge finish] in *.
    + unfold bind.
      destruct (getitem Emission em h g) as [[p | e |] g0];
        try reflexivity; try discriminate.
      rewrite Ed.
      destruct (random_choice choice W p g0) as [[v | e |] g1];
        try reflexivity; discriminate.
    + intros T g'.
      destruct (getitem Emission em h g) as [[p | e |] g0];
        try discriminate.
      destruct (categorical choice p g0) as [[v | e |] g1];
        try discriminate.
      destruct (getitem Transition tr h g1) as [[q | e |] g2];
        try discriminate.
      destruct (categorical choice q g2) as [[h' | e |] g3];
        discriminate.
  - cbn [while_loop]. rewrite (algorithm_loop_unfold (S fuel)).
    pose proof (emission_draw h g) as Ed. unfold bind in Ed |- *.
    destruct (Nat.eqb h EOS); cbv [ret diverge finish] in *.
    + unfold bind.
      destruct (getitem Emission em h g) as [[p | e |] g0];
        try reflexivity; try discriminate.
      rewrite Ed.
      destruct (random_choice choice W p g0) as [[v | e |] g1];
        try reflexivity; discriminate.
    + destruct (getitem Emission em h g) as [[p | e |] g0];
        try reflexivity; try discriminate.
      rewrite Ed.
      destruct (random_choice choice W p g0) as [[v | e |] g1];
        try reflexivity; try discriminate.
      pose proof (transition_draw h g1) as Td. unfold bind in Td.
      destruct (getitem Transition tr h g1) as [[q | e |] g2];
        try reflexivity; try discriminate.
      rewrite Td.
      destruct (random_choice choice N q g2) as [[h' | e |] g3];
        try reflexivity; try discriminate.
      rewrite while_loop_acc. rewrite algorithm_loop_acc.
      specialize (IH h' g3). unfold bind in IH.
      destruct (while_loop choice fuel N W tr em h' [] [] g3)
        as [[[[hf hs] vs] | e |] g4].
      * cbv [finish] in IH |- *. unfold bind in IH |- *.
        destruct (getitem Emission em hf g4) as [[p' | e |] g5].
        -- destruct (random_choice choice W p' g5) as [[v' | e |] g6].
           ++ cbv [ret] in IH |- *. rewrite IH. reflexivity.
           ++ rewrite IH. reflexivity.
           ++ intros T g'. intros F.
              destruct (algorithm_loop choice (S fuel) EOS tr em h' [] g3)
                as [[T' | e |] g7]; try discriminate.
              exact (IH _ _ eq_refl).
        -- rewrite IH. reflexivity.
        -- intros T g'. intros F.
           destruct (algorithm_loop choice (S fuel) EOS tr em h' [] g3)
             as [[T' | e |] g7]; try discriminate.
           exact (IH _ _ eq_refl).
      * rewrite IH. reflexivity.
      * intros T g'. intros F.
        destruct (algorithm_loop choice (S fuel) EOS tr em h' [] g3)
          as [[T' | e |] g7]; try discriminate.
        exact (IH _ _ eq_refl).
Qed.

End Refinement.

(** [generate] against the algorithm, outcome by outcome. *)
Lemma generate_algorithm {rng}
    (choice : nat -> list Q -> rng -> option nat * rng)
    fuel init tr em W g :
  em <> [] ->
  Forall (fun p => length p = W) em ->
  Forall (fun q => length q = length init) tr ->
  match generate choice fuel init tr em g with
  | (Ok (h_total, v_total), g') =>
      algorithm choice (S fuel) EOS init tr em g
      = (Ok (combine h_total v_total), g')
  | (Raise e, g') =>
      algorithm choice (S fuel) EOS init tr em g = (Raise e, g')
  | (Diverge, _) =>
      forall T g', algorithm choice (S fuel) EOS init tr em g <> (Ok T, g')
  end.
Proof.
  intros Hne Hem Htr.
  destruct em as [| row em']; [congruence |].
  assert (HW : length row = W) by (inversion Hem; assumption).
  unfold generate, algorithm, categorical. cbv [shape1].
  rewrite (bind_step _ _ _ _ _ (eq_refl : ret (length row) g = (Ok _, g))).
  rewrite HW. unfold bind.
  destruct (random_choice choice (length init) init g) as [[h0 | e |] g1];
    try reflexivity; try discriminate.
  pose proof (while_loop_algorithm rng choice (length init) W tr
                (row :: em') Htr Hem fuel h0 g1) as L.
  unfold bind in L. rewrite while_loop_acc.
  destruct (while_loop choice fuel (length init) W tr (row :: em')
              h0 [] [] g1) as [[[[hf hs] vs] | e |] g2]; try exact L.
  cbv [finish] in L. unfold bind in L.
  destruct (getitem Emission (row :: em') hf g2) as [[p | e |] g3];
    try exact L.
  destruct (random_choice choice W p g3) as [[v | e |] g4]; exact L.
Qed.

(** C2.  On tables of consistent shape, [generate] computes what the
    algorithm of the specification computes with one more turn of its
    loop: the same pairs of state and observation, the same exception, in
    the same generator state; and a trajectory of the algorithm is one of
    [generate].  Each word returned was drawn from the emission row of the
    state at the same position. *)
Theorem generate_follows_algorithm {rng}
    (choice : nat -> list Q -> rng -> option nat * rng)
    fuel init tr em W g :
  em <> [] ->
  Forall (fun p => length p = W) em ->
  Forall (fun q => length q = length init) tr ->
  (forall h_total v_total g',
     generate choice fuel init tr em g = (Ok (h_total, v_total), g') ->
     algorithm choice (S fuel) EOS init tr em g
     = (Ok (combine h_total v_total), g') /\
     Forall2 (fun h v => exists p g1 g2,
                nth_error em h = Some p /\
                choice (length p) p g1 = (Some v, g2))
             h_total v_total) /\
  (forall e g',
     generate choice fuel init tr em g = (Raise e, g') ->
     algorithm choice (S fuel) EOS init tr em g = (Raise e, g')) /\
  (forall T g',
     algorithm choice (S fuel) EOS init tr em g = (Ok T, g') ->
     exists h_total v_total,
       generate choice fuel init tr em g = (Ok (h_total, v_total), g') /\
       T = combine h_total v_total).
Proof.
  intros Hne Hem Htr.
  pose proof (generate_algorithm choice fuel init tr em W g Hne Hem Htr) as A.
  split; [| split].
  - intros h_total v_total g' H. rewrite H in A. split; [exact A |].
    apply generate_Ok in H.
    destruct H as (row & em' & h0 & g1 & hs & E & Hh0 & -> & St & _).
    apply steps_emitted in St.
    eapply Forall2_impl; [| exact St].
    intros s v (p & ga & gb & Hp & Hd). exists p, ga, gb.
    split; [exact Hp |].
    rewrite Forall_forall in Hem.
    rewrite (Hem p (nth_error_In _ _ Hp)).
    subst em.
    replace W with (length row); [exact Hd |].
    apply Hem. left. reflexivity.
  - intros e g' H. rewrite H in A. exact A.
  - intros T g' H.
    destruct (generate choice fuel init tr em g) as [[[ht vt] | e |] g1].
    + rewrite H in A. inversion A; subst. exists ht, vt. auto.
    + rewrite H in A. discriminate A.
    + exfalso. exact (A _ _ H).
Qed.

(** The call of the scenario, and the algorithm on the same script. *)
Lemma generate_follows_algorithm_scenario :
  algorithm scripted 4 EOS initial transition emission scenario
  = (Ok [(0, 0); (3, 4); (4, 13); (5, 14)], []) /\
  Forall2 (fun h v => exists p g1 g2,
             nth_error emission h = Some p /\
             scripted (length p) p g1 = (Some v, g2))
          [0; 3; 4; 5] [0; 4; 13; 14].
Proof.
  refine (proj1 (generate_follows_algorithm scripted 3 initial transition
                   emission 15 scenario _ _ _)
            [0; 3; 4; 5] [0; 4; 13; 14] [] eq_refl).
  - discriminate.
  - repeat constructor.
  - repeat constructor.
Defined.

(** *** Tables that no validation has seen *)

(** A run from a reachable state ends in a reachable [<EOS>]. *)
Lemma steps_reachable {rng}
    (choice : nat -> list Q -> rng -> option nat * rng)
    init N W tr em h g hs vs g' :
  supported choice ->
  steps choice N W tr em h g hs vs g' ->
  reachable init tr h -> reachable init tr EOS.
Proof.
  intros Hs.
  induction 1 as [h g p v g' E _ _
                 | h g p v g1 q h' g2 hs vs g' E _ _ Hq Hh' _ IH];
    intros R.
  - subst h. exact R.
  - apply IH. eapply reachable_step; [exact R | exact Hq |].
    exact (Hs _ _ _ _ _ Hh').
Qed.

(** On a table whose terminal state has no incoming probability and no
    initial probability, [generate] is not refused: it draws, seven times
    in three turns of its loop, and is still looping. *)
Lemma unreachable_terminal_is_sampled :
  (nth EOS initial 0 == 0)%Q /\
  (forall s q, nth_error looping_transition s = Some q ->
               (nth EOS q 0 == 0)%Q) /\
  generate (logged greedy) 3 initial looping_transition emission (tt, [])
  = (Diverge, (tt, looping_log)).
Proof.
  split; [reflexivity |]. split; [| reflexivity].
  intros s q H.
  do 5 (destruct s as [| s]; [inversion H; reflexivity |]).
  destruct s; discriminate H.
Qed.

(** C4, as the code has it.  [generate] makes no check of reachability and
    raises no error for it.  When [<EOS>] has no initial probability and
    no probability in the transition row of any reachable state, a call of
    [generate] with a sampler that returns only indices of positive
    probability never returns a trajectory, whatever the fuel. *)
Theorem unreachable_terminal_never_returns {rng}
    (choice : nat -> list Q -> rng -> option nat * rng)
    fuel init tr em g h_total v_total g' :
  supported choice ->
  (nth EOS init 0 == 0)%Q ->
  (forall s q, reachable init tr s -> nth_error tr s = Some q ->
               (nth EOS q 0 == 0)%Q) ->
  generate choice fuel init tr em g <> (Ok (h_total, v_total), g').
Proof.
  intros Hs Hi Hz H.
  apply generate_Ok in H.
  destruct H as (row & em' & h0 & g1 & hs & -> & Hh0 & -> & St & _).
  assert (R : reachable init tr EOS).
  { eapply steps_reachable; [exact Hs | exact St |].
    apply reachable_initial. exact (Hs _ _ _ _ _ Hh0). }
  inversion R as [s P | s q t Rs Hq P]; subst.
  - rewrite Hi in P. discriminate P.
  - rewrite (Hz s q Rs Hq) in P. discriminate P.
Qed.

(** The table [looping_transition] with the sampler [greedy]. *)
Lemma unreachable_terminal_never_returns_looping :
  generate greedy 3 initial looping_transition emission tt
  <> (Ok ([0; 3; 4; 5], [0; 4; 13; 14]), tt).
Proof.
  apply (unreachable_terminal_never_returns greedy 3 initial
           looping_transition emission tt [0; 3; 4; 5] [0; 4; 13; 14] tt
           greedy_supported).
  - reflexivity.
  - intros s q _ H.
    do 5 (destruct s as [| s]; [inversion H; reflexivity |]).
    destruct s; discriminate H.
Defined.

Lemma while_loop_Raise {rng}
    (choice : nat -> list Q -> rng -> option nat * rng) N W tr em fuel :
  forall h ht vt g e g',
    while_loop choice fuel N W tr em h ht vt g = (Raise e, g') ->
    raised_by choice tr em e g'.
Proof.
  induction fuel as [| fuel IH]; intros h ht vt g e g';
    cbn [while_loop]; destruct (Nat.eqb h EOS);
    cbv [ret diverge]; try discriminate.
  intros H.
  apply bind_Raise in H. destruct H as [H | (p & g0 & _ & H)].
  { apply getitem_Raise in H. destruct H as (H & -> & _). exact H. }
  apply bind_Raise in H. destruct H as [H | (v & g1 & _ & H)].
  { apply random_choice_Raise in H. destruct H as [H ->]. cbn. eauto. }
  apply bind_Raise in H. destruct H as [H | (q & g2 & _ & H)].
  { apply getitem_Raise in H. destruct H as (H & -> & _). exact H. }
  apply bind_Raise in H. destruct H as [H | (h' & g3 & _ & H)].
  { apply random_choice_Raise in H. destruct H as [H ->]. cbn. eauto. }
  exact (IH _ _ _ _ _ _ H).
Qed.

(** A run reads the emission rows of its states and the transition rows
    of those that are not [<EOS>], and no other. *)
Lemma steps_agree {rng} (choice : nat -> list Q -> rng -> option nat * rng)
    N W tr em tr2 em2 h g hs vs g' :
  steps choice N W tr em h g hs vs g' ->
  (forall s, In s (h :: hs) -> nth_error em2 s = nth_error em s) ->
  (forall s, In s (h :: hs) -> s <> EOS ->
             nth_error tr2 s = nth_error tr s) ->
  steps choice N W tr2 em2 h g hs vs g'.
Proof.
  induction 1 as [h g p v g' E Hp Hv
                 | h g p v g1 q h' g2 hs vs g' E Hp Hv Hq Hh' _ IH];
    intros Aem Atr.
  - eapply steps_stop; [exact E | | exact Hv].
    rewrite Aem; [exact Hp | left; reflexivity].
  - eapply steps_go; [exact E | | exact Hv | | exact Hh' |].
    + rewrite Aem; [exact Hp | left; reflexivity].
    + rewrite Atr; [exact Hq | left; reflexivity | exact E].
    + apply IH.
      * intros s Hin. apply Aem. right. exact Hin.
      * intros s Hin. apply Atr. right. exact Hin.
Qed.

(** A table with a negative entry and a row that does not sum to 1 is not
    refused: [generate] returns the trajectory of the scenario from it. *)
Lemma invalid_table_is_sampled :
  (nth 1 (nth 2 skewed_transition []) 0 < 0)%Q /\
  ~ (row_sum (nth 2 skewed_transition []) == 1)%Q /\
  generate scripted 3 initial skewed_transition emission scenario
  = (Ok ([0; 3; 4; 5], [0; 4; 13; 14]), []).
Proof.
  split; [reflexivity |]. split; [| reflexivity].
  intros H. discriminate H.
Qed.

(** C3, as the code has it.  There is no [validate] and no
    [ValidationError]: [generate] takes the tables as they are.  An
    exception of [generate] is a refusal of the sampler or a subscript
    beyond the rows of a table; and a call that returns has read only
    the width of the first emission row, the emission rows of the states
    it returns and the transition rows of those that are not [<EOS>], so
    that any other tables that agree there give the same result. *)
Theorem generate_checks_nothing {rng}
    (choice : nat -> list Q -> rng -> option nat * rng)
    fuel init tr em g :
  (forall e g',
     generate choice fuel init tr em g = (Raise e, g') ->
     raised_by choice tr em e g') /\
  (forall h_total v_total g' tr2 em2,
     generate choice fuel init tr em g = (Ok (h_total, v_total), g') ->
     length (hd [] em2) = length (hd [] em) ->
     (forall s, In s h_total -> nth_error em2 s = nth_error em s) ->
     (forall s, In s h_total -> s <> EOS ->
                nth_error tr2 s = nth_error tr s) ->
     generate choice fuel init tr2 em2 g = (Ok (h_total, v_total), g')).
Proof.
  split.
  - intros e g' H. unfold generate in H.
    apply bind_Raise in H. destruct H as [H | (W & g0 & HW & H)].
    { destruct em; cbv [shape1 ret raise] in H; inversion H. reflexivity. }
    apply bind_Raise in H. destruct H as [H | (h0 & g1 & _ & H)].
    { apply random_choice_Raise in H. destruct H as [H ->]. cbn. eauto. }
    apply bind_Raise in H. destruct H as [H | ([[hf ht] vt] & g2 & _ & H)].
    { exact (while_loop_Raise _ _ _ _ _ _ _ _ _ _ _ _ H). }
    apply bind_Raise in H. destruct H as [H | (p & g3 & _ & H)].
    { apply getitem_Raise in H. destruct H as (H & -> & _). exact H. }
    apply bind_Raise in H. destruct H as [H | (v & g4 & _ & H)].
    { apply random_choice_Raise in H. destruct H as [H ->]. cbn. eauto. }
    discriminate H.
  - intros h_total v_total g' tr2 em2 H Hw Aem Atr.
    apply generate_Ok in H.
    destruct H as (row & em' & h0 & g1 & hs & -> & Hh0 & -> & St & Le).
    pose proof (steps_agree _ _ _ _ _ tr2 em2 _ _ _ _ _ St Aem Atr) as St2.
    destruct em2 as [| row2 em2'].
    { exfalso. pose proof (steps_emitted _ _ _ _ _ _ _ _ _ _ _ St2) as F.
      inversion F as [| s v l l' (p & _ & _ & Hp & _) _]; subst.
      destruct h0; discriminate Hp. }
    cbn [hd] in Hw. rewrite <- Hw in St2.
    exact (run_generate _ _ _ _ _ _ _ _ _ _ _ _ Hh0 St2 Le).
Qed.

(** [skewed_transition] agrees with [transition] on the rows of Subject,
    Verb and Object, which the call of the scenario reads. *)
Lemma generate_checks_nothing_skewed :
  generate scripted 3 initial skewed_transition emission scenario
  = (Ok ([0; 3; 4; 5], [0; 4; 13; 14]), []).
Proof.
  refine (proj2 (generate_checks_nothing scripted 3 initial transition
                   emission scenario)
            [0; 3; 4; 5] [0; 4; 13; 14] [] skewed_transition emission
            eq_refl eq_refl _ _).
  - intros s _. reflexivity.
  - intros s Hin Hne. cbn in Hin.
    destruct Hin as [<- | [<- | [<- | [<- | []]]]]; reflexivity.
Defined.

(** * Further properties *)

(** ** Dicts *)

Lemma dict_get_lookup {V} (d : list (nat * V)) k :
  dict_get d k = dict_lookup Nat.eqb d k.
Proof.
  induction d as [| [k' v] d IH]; cbn; [reflexivity |].
  rewrite IH. reflexivity.
Qed.

Lemma dict_find_lookup d k : dict_find d k = dict_lookup String.eqb d k.
Proof.
  induction d as [| [k' v] d IH]; cbn; [reflexivity |].
  rewrite IH. reflexivity.
Qed.

(** The two dicts that the notebook builds by comprehension. *)
Lemma state2id_inverted : inverted Nat.eqb String.eqb id2state = state2id.
Proof. reflexivity. Qed.

Lemma id2word_inverted : inverted String.eqb Nat.eqb word2id = id2word.
Proof. reflexivity. Qed.

Section Inversion.

Variables K V : Type.
Variable eqbK : K -> K -> bool.
Variable eqbV : V -> V -> bool.
Hypothesis eqbK_eq : forall x y, eqbK x y = true <-> x = y.
Hypothesis eqbV_eq : forall x y, eqbV x y = true <-> x = y.

Lemma dict_lookup_In (d : list (K * V)) k v :
  NoDup (map fst d) ->
  (dict_lookup eqbK d k = Some v <-> In (k, v) d).
Proof.
  induction d as [| [k' v'] d IH]; cbn; intros ND.
  - split; [discriminate | intros []].
  - inversion ND as [| x l Hnin ND']; subst.
    destruct (eqbK k' k) eqn:E.
    + apply eqbK_eq in E. subst k'. split.
      * intros H. inversion H. left. reflexivity.
      * intros [H | H]; [inversion H; reflexivity |].
        exfalso. apply Hnin. exact (in_map fst _ _ H).
    + rewrite (IH ND'). split; [intros H; right; exact H |].
      intros [H | H]; [| exact H].
      inversion H; subst. exfalso.
      assert (T : eqbK k k = true) by (apply eqbK_eq; reflexivity).
      congruence.
Qed.

Lemma dict_lookup_In_values (d : list (V * K)) v k :
  NoDup (map fst d) ->
  (dict_lookup eqbV d v = Some k <-> In (v, k) d).
Proof.
  induction d as [| [v' k'] d IH]; cbn; intros ND.
  - split; [discriminate | intros []].
  - inversion ND as [| x l Hnin ND']; subst.
    destruct (eqbV v' v) eqn:E.
    + apply eqbV_eq in E. subst v'. split.
      * intros H. inversion H. left. reflexivity.
      * intros [H | H]; [inversion H; reflexivity |].
        exfalso. apply Hnin. exact (in_map fst _ _ H).
    + rewrite (IH ND'). split; [intros H; right; exact H |].
      intros [H | H]; [| exact H].
      inversion H; subst. exfalso.
      assert (T : eqbV v v = true) by (apply eqbV_eq; reflexivity).
      congruence.
Qed.

(** A key that the dict does not hold goes last. *)
Lemma dict_set_fresh (acc : list (V * K)) v k :
  ~ In v (map fst acc) -> dict_set eqbV acc v k = acc ++ [(v, k)].
Proof.
  induction acc as [| [v' k'] acc IH]; cbn; intros Hnin; [reflexivity |].
  destruct (eqbV v' v) eqn:E.
  - apply eqbV_eq in E. exfalso. apply Hnin. left. exact E.
  - rewrite IH; [reflexivity |]. intros H. apply Hnin. right. exact H.
Qed.

(** With no key and no value twice, the comprehension stores each pair the
    other way round, in the order of the dict. *)
Lemma inverted_swap (d : list (K * V)) :
  NoDup (map fst d) -> NoDup (map snd d) ->
  inverted eqbK eqbV d = map swap d.
Proof.
  intros NK NV. unfold inverted.
  assert (G : forall d2 d1, d = d1 ++ d2 ->
            fold_left
              (fun acc k =>
                 match dict_lookup eqbK d k with
                 | Some v => dict_set eqbV acc v k
                 | None => acc
                 end) (map fst d2) (map swap d1) = map swap d).
  { induction d2 as [| [k v] d2 IH]; intros d1 E.
    - rewrite app_nil_r in E. subst d1. reflexivity.
    - cbn [map fst fold_left].
      assert (Hin : In (k, v) d) by (rewrite E; apply in_elt).
      rewrite (proj2 (dict_lookup_In d k v NK) Hin).
      rewrite dict_set_fresh.
      + specialize (IH (d1 ++ [(k, v)])).
        rewrite map_app in IH. cbn [map] in IH. apply IH.
        rewrite <- app_assoc. exact E.
      + rewrite map_map. cbn [swap fst].
        rewrite E, map_app in NV. cbn [map snd] in NV.
        apply NoDup_remove_2 in NV. intros H. apply NV.
        apply in_or_app. left. exact H. }
  exact (G d [] eq_refl).
Qed.

End Inversion.

(** X1.  For a dict that holds no value twice, the dict that the
    comprehension [{d[k]: k for k in d}] builds is its inverse: it maps
    [v] to [k] exactly when [d] maps [k] to [v]. *)
Theorem inverted_round_trip {K V}
    (eqbK : K -> K -> bool) (eqbV : V -> V -> bool) (d : list (K * V)) k v :
  (forall x y, eqbK x y = true <-> x = y) ->
  (forall x y, eqbV x y = true <-> x = y) ->
  NoDup (map fst d) -> NoDup (map snd d) ->
  (dict_lookup eqbV (inverted eqbK eqbV d) v = Some k <->
   dict_lookup eqbK d k = Some v).
Proof.
  intros HK HV NK NV.
  rewrite (inverted_swap K V eqbK eqbV HK HV d NK NV).
  rewrite (dict_lookup_In K V eqbK HK d k v NK).
  rewrite (dict_lookup_In_values K V eqbV HV (map swap d) v k).
  - rewrite in_map_iff. split.
    + intros ([k' v'] & E & H). inversion E; subst. exact H.
    + intros H. exists (k, v). split; [reflexivity | exact H].
  - rewrite map_map. exact NV.
Qed.

Lemma NoDup_state_ids : NoDup (map fst id2state).
Proof.
  repeat (apply NoDup_cons; [cbn; intuition discriminate |]).
  apply NoDup_nil.
Qed.

Lemma NoDup_state_names : NoDup (map snd id2state).
Proof.
  repeat (apply NoDup_cons; [cbn; intuition discriminate |]).
  apply NoDup_nil.
Qed.

(** [state2id['Verb']] is 3 exactly when [id2state[3]] is ['Verb']. *)
Lemma inverted_round_trip_states :
  dict_find state2id "Verb" = Some 3 <-> dict_get id2state 3 = Some "Verb".
Proof.
  exact (inverted_round_trip Nat.eqb String.eqb id2state 3 "Verb"
           Nat.eqb_eq String.eqb_eq NoDup_state_ids NoDup_state_names).
Defined.

(** The assertion of the notebook holds:
    [transition[0][3] == transition[state2id['Subject']][state2id['Verb']]]. *)
Example assertion_holds :
  match dict_find state2id "Subject", dict_find state2id "Verb" with
  | Some s, Some v =>
      Qeq_bool (nth 3 (nth 0 transition []) 0%Q)
               (nth v (nth s transition []) 0%Q) = true
  | _, _ => False
  end.
Proof. reflexivity. Qed.

(** ** Labels *)

(** X2.  The list of labels [[d[v] for v in l]] exists exactly when each
    [v] of [l] is a key of [d], and then holds the label of each [v], in
    order; otherwise some [v] of [l] is no key of [d] (a [KeyError]). *)
Theorem labels_spec (d : list (nat * string)) (l : list nat) :
  (forall ws, labels d l = Some ws <->
              Forall2 (fun v w => dict_get d v = Some w) l ws) /\
  (labels d l = None <-> exists v, In v l /\ dict_get d v = None).
Proof.
  induction l as [| v l [IH1 IH2]]; cbn [labels].
  - split.
    + intros ws. split; intros H.
      * inversion H. constructor.
      * inversion H. reflexivity.
    + split; [discriminate | intros (v & [] & _)].
  - destruct (dict_get d v) as [w |] eqn:E.
    + destruct (labels d l) as [ws' |] eqn:L.
      * split.
        -- intros ws. split; intros H.
           ++ inversion H; subst. constructor; [exact E |].
              apply IH1. reflexivity.
           ++ inversion H as [| a b l1 l2 Hab Hrest]; subst.
              rewrite E in Hab. inversion Hab; subst.
              apply IH1 in Hrest. inversion Hrest. reflexivity.
        -- split; [discriminate |].
           intros (u & [<- | Hin] & Hu); [congruence |].
           exfalso. assert (F : Some ws' = None); [| discriminate F].
           apply IH2. exists u. auto.
      * split.
        -- intros ws. split; [discriminate |]. intros H.
           inversion H as [| a b l1 l2 Hab Hrest]; subst.
           apply IH1 in Hrest. discriminate Hrest.
        -- split; [| reflexivity]. intros _.
           destruct (proj1 IH2 eq_refl) as (u & Hin & Hu).
           exists u. split; [right; exact Hin | exact Hu].
    + split.
      * intros ws. split; [discriminate |]. intros H.
        inversion H as [| a b l1 l2 Hab Hrest]; subst. congruence.
      * split; [| reflexivity]. intros _. exists v.
        split; [left; reflexivity | exact E].
Qed.

(** ** What a returned trajectory looks like *)

(** The states of a run form a walk. *)
Lemma steps_walk {rng} (choice : nat -> list Q -> rng -> option nat * rng)
    N W tr em h g hs vs g' :
  supported choice ->
  steps choice N W tr em h g hs vs g' -> walk tr h hs.
Proof.
  intros Hs.
  induction 1 as [h g p v g' E _ _
                 | h g p v g1 q h' g2 hs vs g' E _ _ Hq Hh' _ IH].
  - subst h. apply walk_stop.
  - eapply walk_go; [exact E | exact Hq | | exact IH].
    exact (Hs _ _ _ _ _ Hh').
Qed.

Lemma walk_terminal tr h hs :
  walk tr h hs -> exists earlier, h :: hs = earlier ++ [EOS] /\ ~ In EOS earlier.
Proof.
  induction 1 as [| h q h' hs E _ _ _ IH].
  - exists []. split; [reflexivity | intros []].
  - destruct IH as (earlier & -> & Hn). exists (h :: earlier).
    split; [reflexivity |]. intros [F | F]; [congruence | contradiction].
Qed.

Lemma labels_defined d l :
  Forall (fun v => dict_get d v <> None) l -> labels d l <> None.
Proof.
  induction 1 as [| v l Hv _ IH]; cbn [labels]; [discriminate |].
  destruct (dict_get d v); [| congruence].
  destruct (labels d l); [discriminate | congruence].
Qed.

Lemma labels_length d l : forall ws,
  labels d l = Some ws -> length ws = length l.
Proof.
  induction l as [| v l IH]; cbn [labels]; intros ws H.
  - inversion H. reflexivity.
  - destruct (dict_get d v); [| discriminate H].
    destruct (labels d l) as [ws' |]; [| discriminate H].
    inversion H. cbn. rewrite (IH ws' eq_refl). reflexivity.
Qed.

(** X3.  For a sampler that returns only indices of positive probability
    and tables over the six states and the fifteen words, the two lines
    that print a returned trajectory raise no [KeyError]: every state has
    its label in [id2state] and every word its label in [id2word], and
    there are as many labels of states as of words. *)
Theorem generated_labels_exist {rng}
    (choice : nat -> list Q -> rng -> option nat * rng)
    fuel init tr em g h_total v_total g' :
  supported choice ->
  length init = 6 ->
  Forall (fun q => length q = 6) tr ->
  Forall (fun p => length p = 15) em ->
  generate choice fuel init tr em g = (Ok (h_total, v_total), g') ->
  exists states words sentence,
    labels id2state h_total = Some states /\
    labels id2word v_total = Some words /\
    render id2word v_total = Some sentence /\
    length states = length words.
Proof.
  intros Hs Hi Htr Hem H.
  apply generate_Ok in H.
  destruct H as (row & em' & h0 & g1 & hs & -> & Hh0 & -> & St & _).
  destruct (steps_bounds choice _ _ _ _ 6 15 _ _ _ _ _ Hs Htr Hem St)
    as [B1 B2].
  assert (B0 : h0 < 6).
  { rewrite <- Hi. exact (positive_in_range _ _ (Hs _ _ _ _ _ Hh0)). }
  assert (L1 : labels id2state (h0 :: hs) <> None).
  { apply labels_defined. apply Forall_cons; [| eapply Forall_impl; [| exact B1]].
    - do 6 (destruct h0 as [| h0]; [discriminate |]). lia.
    - intros s Ls. do 6 (destruct s as [| s]; [discriminate |]). lia. }
  assert (L2 : labels id2word v_total <> None).
  { apply labels_defined. eapply Forall_impl; [| exact B2].
    intros v Lv. do 15 (destruct v as [| v]; [discriminate |]). lia. }
  destruct (labels id2state (h0 :: hs)) as [states |] eqn:E1; [| congruence].
  destruct (labels id2word v_total) as [words |] eqn:E2; [| congruence].
  exists states, words, (String.concat " " words).
  repeat split.
  - unfold render. rewrite E2. reflexivity.
  - rewrite (labels_length _ _ _ E1), (labels_length _ _ _ E2).
    apply steps_length in St. cbn. lia.
Qed.

(** The call of the scenario prints its four states and its four words. *)
Lemma generated_labels_exist_scenario :
  exists states words sentence,
    labels id2state [0; 3; 4; 5] = Some states /\
    labels id2word [0; 4; 13; 14] = Some words /\
    render id2word [0; 4; 13; 14] = Some sentence /\
    length states = length words.
Proof.
  apply (generated_labels_exist scripted 3 initial transition emission
           scenario [0; 3; 4; 5] [0; 4; 13; 14] [] scripted_supported).
  - reflexivity.
  - repeat constructor.
  - repeat constructor.
  - reflexivity.
Defined.

(** X4.  For a sampler that returns only indices of positive probability,
    a returned trajectory has positive probability: its first state has
    positive probability in [initial], each further state in the
    transition row of the state before it, and each word in the emission
    row of its state. *)
Theorem generate_positive {rng}
    (choice : nat -> list Q -> rng -> option nat * rng)
    fuel init tr em g h_total v_total g' :
  supported choice ->
  generate choice fuel init tr em g = (Ok (h_total, v_total), g') ->
  (0 < nth (hd 0%nat h_total) init 0)%Q /\
  walk tr (hd 0 h_total) (tl h_total) /\
  Forall2 (fun h v => (0 < nth v (nth h em []) 0)%Q) h_total v_total.
Proof.
  intros Hs H. apply generate_Ok in H.
  destruct H as (row & em' & h0 & g1 & hs & -> & Hh0 & -> & St & _).
  cbn [hd tl]. split; [exact (Hs _ _ _ _ _ Hh0) |].
  split; [exact (steps_walk _ _ _ _ _ _ _ _ _ _ Hs St) |].
  eapply Forall2_impl; [| exact (steps_emitted _ _ _ _ _ _ _ _ _ _ _ St)].
  intros s v (p & ga & gb & Hp & Hd).
  rewrite (nth_error_nth _ _ [] Hp). exact (Hs _ _ _ _ _ Hd).
Qed.

(** The call of the scenario: Subject has probability 0.7, then Verb, Object
    and <EOS> follow with probabilities 0.7, 0.5 and 1. *)
Lemma generate_positive_scenario :
  (0 < nth 0%nat initial 0)%Q /\
  walk transition 0 [3; 4; 5] /\
  Forall2 (fun h v => (0 < nth v (nth h emission []) 0)%Q)
          [0; 3; 4; 5] [0; 4; 13; 14].
Proof.
  exact (generate_positive scripted 3 initial transition emission scenario
           [0; 3; 4; 5] [0; 4; 13; 14] [] scripted_supported eq_refl).
Defined.

(** ** The calls of the sampler *)

Lemma draws_of_length N W tr em : forall hs h vs,
  length vs = S (length hs) ->
  length (draws_of N W tr em h hs vs) = length vs + length hs.
Proof.
  induction hs as [| h' hs IH]; intros h vs Len.
  - destruct vs as [| v [| v' vs]]; try discriminate Len. reflexivity.
  - destruct vs as [| v vs]; [discriminate Len |].
    cbn in Len. injection Len as Len. cbn [draws_of length].
    rewrite (IH h' vs Len). lia.
Qed.

Lemma steps_draws {rng} (choice : nat -> list Q -> rng -> option nat * rng)
    N W tr em h gl hs vs gl' :
  steps (logged choice) N W tr em h gl hs vs gl' ->
  snd gl' = snd gl ++ draws_of N W tr em h hs vs.
Proof.
  induction 1 as [h [g l] p v [g' l'] E Hp Hv
                 | h [g l] p v [g1 l1] q h' [g2 l2] hs vs gl' E Hp Hv Hq Hh'
                     St IH].
  - apply logged_Some in Hv. destruct Hv as [_ ->].
    cbn [snd draws_of]. rewrite (nth_error_nth _ _ [] Hp). reflexivity.
  - apply logged_Some in Hv. destruct Hv as [_ ->].
    apply logged_Some in Hh'. destruct Hh' as [_ ->].
    rewrite IH. cbn [snd draws_of]. rewrite <- !app_assoc.
    rewrite (nth_error_nth _ _ [] Hp), (nth_error_nth _ _ [] Hq).
    reflexivity.
Qed.

(** X5.  A call that returns has called the sampler twice for each state
    of the trajectory, and in this order: once over [initial] with
    [len(initial)], then for each state over its emission row with
    [emission.shape[1]] and, unless the state is the last, over its
    transition row with [len(initial)]. *)
Theorem generate_draws {rng}
    (choice : nat -> list Q -> rng -> option nat * rng)
    fuel init tr em g h_total v_total g' log :
  generate (logged choice) fuel init tr em (g, [])
  = (Ok (h_total, v_total), (g', log)) ->
  log = Draw (length init) init (hd 0 h_total)
        :: draws_of (length init) (length (hd [] em)) tr em
             (hd 0 h_total) (tl h_total) v_total /\
  length log = 2 * length h_total.
Proof.
  intros H. apply generate_Ok in H.
  destruct H as (row & em' & h0 & [g1 l1] & hs & -> & Hh0 & -> & St & _).
  apply logged_Some in Hh0. destruct Hh0 as [_ ->].
  pose proof (steps_draws _ _ _ _ _ _ _ _ _ _ St) as L. cbn [snd] in L.
  cbn [hd tl]. rewrite L. split; [reflexivity |].
  cbn [app length].
  rewrite draws_of_length by exact (steps_length _ _ _ _ _ _ _ _ _ _ _ St).
  rewrite (steps_length _ _ _ _ _ _ _ _ _ _ _ St). lia.
Qed.

(** The eight draws of the scenario. *)
Lemma generate_draws_scenario :
  scenario_log
  = Draw 6 initial 0
    :: draws_of 6 15 transition emission 0 [3; 4; 5] [0; 4; 13; 14] /\
  length scenario_log = 2 * length [0; 3; 4; 5].
Proof.
  exact (generate_draws scripted 3 initial transition emission scenario
           [0; 3; 4; 5] [0; 4; 13; 14] [] scenario_log eq_refl).
Defined.

(** ** Exceptions on tables of the right shape *)

(** On tables with a row for every state that can be current, the loop
    raises only when the sampler refuses a row of a table. *)
Lemma while_loop_refusal {rng}
    (choice : nat -> list Q -> rng -> option nat * rng) N W tr em :
  supported choice ->
  Forall (fun q => length q = S EOS) tr ->
  EOS <= length tr ->
  S EOS <= length em ->
  forall fuel h ht vt g e g',
    h <= EOS ->
    while_loop choice fuel N W tr em h ht vt g = (Raise e, g') ->
    e = ValueError /\
    exists n p g0, choice n p g0 = (None, g') /\
                   ((n = W /\ In p em) \/ (n = N /\ In p tr)).
Proof.
  intros Hs Htr Hrows Hem. rewrite Forall_forall in Htr.
  induction fuel as [| fuel IH]; intros h ht vt g e g' Hh;
    cbn [while_loop]; destruct (Nat.eqb_spec h EOS) as [E | E];
    cbv [ret diverge]; try discriminate.
  intros H.
  apply bind_Raise in H. destruct H as [H | (p & g0 & Hp & H)].
  { apply getitem_Raise in H. destruct H as (H & _ & _).
    apply nth_error_None in H. lia. }
  apply getitem_Ok in Hp. destruct Hp as [Hp ->].
  apply bind_Raise in H. destruct H as [H | (v & g1 & _ & H)].
  { apply random_choice_Raise in H. destruct H as [H ->].
    split; [reflexivity |]. exists W, p, g. split; [exact H |].
    left. split; [reflexivity | exact (nth_error_In _ _ Hp)]. }
  apply bind_Raise in H. destruct H as [H | (q & g2 & Hq & H)].
  { apply getitem_Raise in H. destruct H as (H & _ & _).
    apply nth_error_None in H. lia. }
  apply getitem_Ok in Hq. destruct Hq as [Hq ->].
  apply bind_Raise in H. destruct H as [H | (h' & g3 & Hh' & H)].
  { apply random_choice_Raise in H. destruct H as [H ->].
    split; [reflexivity |]. exists N, q, g1. split; [exact H |].
    right. split; [reflexivity | exact (nth_error_In _ _ Hq)]. }
  apply random_choice_Ok in Hh'.
  apply (IH h' _ _ _ _ _) in H; [exact H |].
  pose proof (positive_in_range _ _ (Hs _ _ _ _ _ Hh')) as L.
  rewrite (Htr q (nth_error_In _ _ Hq)) in L. lia.
Qed.

Lemma generate_refusal {rng}
    (choice : nat -> list Q -> rng -> option nat * rng)
    fuel init tr em g e g' :
  supported choice ->
  length init = 6 ->
  Forall (fun q => length q = 6) tr ->
  5 <= length tr ->
  6 <= length em ->
  generate choice fuel init tr em g = (Raise e, g') ->
  e = ValueError /\
  exists n p g0,
    choice n p g0 = (None, g') /\
    ((n = length init /\ (p = init \/ In p tr)) \/
     (n = length (hd [] em) /\ In p em)).
Proof.
  intros Hs Hi Htr Hrows Hem H. unfold generate in H.
  destruct em as [| row em']; [cbn in Hem; lia |].
  cbv [shape1] in H.
  rewrite (bind_step _ _ _ _ _
             (eq_refl : ret (length row) g = (Ok _, g))) in H.
  apply bind_Raise in H. destruct H as [H | (h0 & g1 & Hh0 & H)].
  { apply random_choice_Raise in H. destruct H as [H ->].
    split; [reflexivity |]. exists (length init), init, g. auto. }
  apply random_choice_Ok in Hh0.
  assert (B0 : h0 <= EOS).
  { pose proof (positive_in_range _ _ (Hs _ _ _ _ _ Hh0)) as L.
    rewrite Hi in L. apply Nat.lt_succ_r. exact L. }
  apply bind_Raise in H. destruct H as [H | ([[hf ht] vt] & g2 & L & H)].
  { apply (while_loop_refusal choice _ _ _ _ Hs Htr Hrows Hem) in H;
      [| exact B0].
    destruct H as (-> & n & p & g0 & Hr & [[-> Hin] | [-> Hin]]).
    - split; [reflexivity |]. exists (length row), p, g0.
      split; [exact Hr |]. right. cbn [hd]. auto.
    - split; [reflexivity |]. exists (length init), p, g0.
      split; [exact Hr |]. left. auto. }
  apply while_loop_exit in L. subst hf.
  apply bind_Raise in H. destruct H as [H | (p & g3 & Hp & H)].
  { apply getitem_Raise in H. destruct H as (H & _ & _).
    apply nth_error_None in H. unfold EOS in H. lia. }
  apply getitem_Ok in Hp. destruct Hp as [Hp ->].
  apply bind_Raise in H. destruct H as [H | (v & g4 & _ & H)].
  { apply random_choice_Raise in H. destruct H as [H ->].
    split; [reflexivity |]. exists (length row), p, g2.
    split; [exact H |]. right. cbn [hd].
    split; [reflexivity | exact (nth_error_In _ _ Hp)]. }
  discriminate H.
Qed.

(** X6.  On tables over six states, with at least five transition rows
    and six emission rows, and a sampler that returns only indices of
    positive probability, the only exception of [generate] is the
    [ValueError] of the sampler, raised on [initial] or on a row of
    [transition] or [emission]: no subscript is out of range. *)
Theorem generate_raises_only_refusals {rng}
    (choice : nat -> list Q -> rng -> option nat * rng)
    fuel init tr em g e g' :
  supported choice ->
  length init = 6 ->
  Forall (fun q => length q = 6) tr ->
  5 <= length tr ->
  6 <= length em ->
  generate choice fuel init tr em g = (Raise e, g') ->
  e = ValueError /\
  exists n p g0,
    choice n p g0 = (None, g') /\ (p = init \/ In p tr \/ In p em).
Proof.
  intros Hs Hi Htr Hrows Hem H.
  destruct (generate_refusal choice fuel init tr em g e g'
              Hs Hi Htr Hrows Hem H)
    as (-> & n & p & g0 & Hr & [[_ [Hp | Hp]] | [_ Hp]]);
    (split; [reflexivity |]); exists n, p, g0; auto.
Qed.

(** The script that draws <EOS> after Subject is refused on the row of
    Subject. *)
Lemma generate_raises_only_refusals_scenario :
  ValueError = ValueError /\
  exists n p g0,
    scripted n p g0 = (None, []) /\
    (p = initial \/ In p transition \/ In p emission).
Proof.
  apply (generate_raises_only_refusals scripted 3 initial transition
           emission [0; 0; 5] ValueError [] scripted_supported).
  - reflexivity.
  - repeat constructor.
  - cbn. lia.
  - cbn. lia.
  - reflexivity.
Defined.

(** A row that sums to 1 has a positive entry. *)
Lemma first_positive_none p : forall k,
  first_positive p k = None -> (row_sum p <= 0)%Q.
Proof.
  induction p as [| x p IH]; intros k; cbn.
  - intros _. apply Qle_refl.
  - destruct (Qle_bool x 0) eqn:E; cbn; [| discriminate].
    intros H. apply Qle_bool_iff in E. specialize (IH _ H).
    change 0%Q with (0 + 0)%Q. apply Qplus_le_compat; assumption.
Qed.

Lemma greedy_accepting : accepting greedy.
Proof.
  intros n p g (_ & _ & Hsum). unfold greedy. cbn [fst]. intros H.
  apply first_positive_none in H. rewrite Hsum in H.
  apply (Qlt_not_le 0 1); [reflexivity | exact H].
Qed.

(** X7.  When [initial], at least five rows of [transition] and at
    least six rows of [emission] are distributions, over six states for
    the first two, and the sampler returns only indices of positive
    probability and refuses no distribution, [generate] raises no
    exception: a call returns or keeps looping. *)
Theorem generate_never_raises {rng}
    (choice : nat -> list Q -> rng -> option nat * rng)
    fuel init tr em W g e g' :
  supported choice ->
  accepting choice ->
  distribution 6 init ->
  Forall (distribution 6) tr -> 5 <= length tr ->
  Forall (distribution W) em -> 6 <= length em ->
  generate choice fuel init tr em g <> (Raise e, g').
Proof.
  intros Hs Ha Di Dtr Hrows Dem Hem H.
  assert (Hi : length init = 6) by exact (proj1 Di).
  assert (Htr : Forall (fun q => length q = 6) tr).
  { eapply Forall_impl; [| exact Dtr]. intros q Dq. exact (proj1 Dq). }
  rewrite Forall_forall in Dtr, Dem.
  destruct (generate_refusal choice fuel init tr em g e g'
              Hs Hi Htr Hrows Hem H)
    as (_ & n & p & g0 & Hr & Hcase).
  apply (Ha n p g0); [| rewrite Hr; reflexivity].
  destruct Hcase as [[-> [-> | Hp]] | [-> Hp]].
  - rewrite Hi. exact Di.
  - rewrite Hi. exact (Dtr p Hp).
  - destruct em as [| row em']; [destruct Hp |]. cbn [hd].
    replace (length row) with W; [exact (Dem p Hp) |].
    symmetry. exact (proj1 (Dem row (or_introl eq_refl))).
Qed.

Lemma initial_distribution : distribution 6 initial.
Proof.
  split; [reflexivity |]. split; [| reflexivity].
  repeat (apply Forall_cons || apply Forall_nil); intro H; discriminate H.
Qed.

Lemma transition_distributions : Forall (distribution 6) transition.
Proof.
  repeat (apply Forall_cons || apply Forall_nil);
    (split; [reflexivity |]); (split; [| reflexivity]);
    repeat (apply Forall_cons || apply Forall_nil); intro H; discriminate H.
Qed.

Lemma emission_distributions : Forall (distribution 15) emission.
Proof.
  repeat (apply Forall_cons || apply Forall_nil);
    (split; [reflexivity |]); (split; [| reflexivity]);
    repeat (apply Forall_cons || apply Forall_nil); intro H; discriminate H.
Qed.

(** The tables of the notebook with the sampler [greedy], which keeps
    looping. *)
Lemma generate_never_raises_notebook :
  generate greedy 9 initial transition emission tt
  <> (Raise ValueError, tt).
Proof.
  apply (generate_never_raises greedy 9 initial transition emission 15 tt
           ValueError tt greedy_supported greedy_accepting
           initial_distribution transition_distributions).
  - cbn. lia.
  - exact emission_distributions.
  - cbn. lia.
Defined.

(** ** When a call can return *)

(** A reachable [<EOS>] is reached by a walk from a state of positive
    initial probability. *)
Lemma reachable_walk init tr : forall t,
  reachable init tr t ->
  forall hs, walk tr t hs ->
  exists h0 hs0,
    (0 < nth h0 init 0)%Q /\ reachable init tr h0 /\ walk tr h0 hs0.
Proof.
  induction 1 as [s P | s q t R IH Hq P]; intros hs Wk.
  - exists s, hs. split; [exact P |]. split; [| exact Wk].
    apply reachable_initial. exact P.
  - destruct (Nat.eq_dec s EOS) as [E | E].
    + subst s. apply (IH []). apply walk_stop.
    + apply (IH (t :: hs)). eapply walk_go; eauto.
Qed.

(** A walk whose states all have a word of positive probability is the
    run of a script. *)
Lemma walk_run init N W tr em :
  (forall s, reachable init tr s ->
             exists p v, nth_error em s = Some p /\ (0 < nth v p 0)%Q) ->
  forall h hs, walk tr h hs -> reachable init tr h ->
  exists vs, forall rest,
    steps scripted N W tr em h (weave vs hs ++ rest) hs vs rest.
Proof.
  intros Hem. induction 1 as [| h q h' hs E Hq P Wk IH]; intros R.
  - destruct (Hem EOS R) as (p & v & Hp & Pv).
    exists [v]. intros rest. eapply steps_stop; [reflexivity | exact Hp |].
    cbn. rewrite (proj2 (positive_at_spec p v) Pv). reflexivity.
  - destruct (Hem h R) as (p & v & Hp & Pv).
    destruct IH as (vs & IH); [eapply reachable_step; eauto |].
    exists (v :: vs). intros rest. cbn [weave app].
    eapply steps_go; [exact E | exact Hp | | exact Hq | | exact (IH rest)].
    + cbn. rewrite (proj2 (positive_at_spec p v) Pv). reflexivity.
    + cbn. rewrite (proj2 (positive_at_spec q h') P). reflexivity.
Qed.

(** X8.  When [<EOS>] can be reached from a state of positive initial
    probability through transitions of positive probability, and every
    state that can be reached has an emission row with a positive entry,
    some sequence of draws makes [generate] return. *)
Theorem reachable_terminal_can_return init tr em :
  reachable init tr EOS ->
  (forall s, reachable init tr s ->
             exists p v, nth_error em s = Some p /\ (0 < nth v p 0)%Q) ->
  exists script fuel h_total v_total,
    generate scripted fuel init tr em script = (Ok (h_total, v_total), []).
Proof.
  intros R Hem.
  destruct (reachable_walk init tr EOS R [] (walk_stop tr))
    as (h0 & hs & P0 & R0 & Wk).
  destruct em as [| row em'].
  { destruct (Hem h0 R0) as (p & v & Hp & _). destruct h0; discriminate Hp. }
  destruct (walk_run init (length init) (length row) tr (row :: em')
              Hem h0 hs Wk R0) as (vs & St).
  exists (h0 :: weave vs hs ++ []), (length hs), (h0 :: hs), vs.
  eapply run_generate; [| exact (St []) | apply Nat.le_refl].
  cbn. rewrite (proj2 (positive_at_spec init h0) P0). reflexivity.
Qed.

Lemma reachable_notebook s :
  reachable initial transition s -> s < 6.
Proof.
  induction 1 as [s P | s q t R IH Hq P].
  - apply positive_in_range in P. exact P.
  - apply positive_in_range in P.
    do 5 (destruct s as [| s]; [inversion Hq; subst; exact P |]).
    destruct s; discriminate Hq.
Qed.

(** In the tables of the notebook <EOS> is reached through Subject, Verb
    and Object. *)
Lemma reachable_terminal_can_return_notebook :
  exists script fuel h_total v_total,
    generate scripted fuel initial transition emission script
    = (Ok (h_total, v_total), []).
Proof.
  apply reachable_terminal_can_return.
  - apply (reachable_step initial transition 4 (nth 4 transition []) 5);
      [| reflexivity | reflexivity].
    apply (reachable_step initial transition 3 (nth 3 transition []) 4);
      [| reflexivity | reflexivity].
    apply (reachable_step initial transition 0 (nth 0 transition []) 3);
      [| reflexivity | reflexivity].
    apply reachable_initial. reflexivity.
  - intros s R. apply reachable_notebook in R.
    destruct s as [| [| [| [| [| [| s]]]]]]; [| | | | | | exfalso; lia].
    + exists (nth 0 emission []), 0. split; reflexivity.
    + exists (nth 1 emission []), 9. split; reflexivity.
    + exists (nth 2 emission []), 7. split; reflexivity.
    + exists (nth 3 emission []), 4. split; reflexivity.
    + exists (nth 4 emission []), 2. split; reflexivity.
    + exists (nth 5 emission []), 14. split; reflexivity.
Defined.

(** ** The ends of a trajectory *)

Lemma steps_end_marker {rng}
    (choice : nat -> list Q -> rng -> option nat * rng)
    N W tr em w p h g hs vs g' :
  supported choice ->
  nth_error em EOS = Some p -> one_hot w p ->
  (forall s p', s <> EOS -> nth_error em s = Some p' ->
                (nth w p' 0 == 0)%Q) ->
  steps choice N W tr em h g hs vs g' ->
  exists earlier, vs = earlier ++ [w] /\ ~ In w earlier.
Proof.
  intros Hs Hp Op Hz.
  induction 1 as [h g p0 v g' E Hp0 Hv
                 | h g p0 v g1 q h' g2 hs vs g' E Hp0 Hv _ _ _ IH].
  - subst h. rewrite Hp in Hp0. inversion Hp0; subst p0.
    rewrite (one_hot_draw _ _ _ _ _ _ _ Hs Op Hv).
    exists []. split; [reflexivity | intros []].
  - destruct IH as (earlier & -> & Hn). exists (v :: earlier).
    split; [reflexivity |]. intros [F | F]; [| contradiction].
    subst v. apply Hs in Hv. rewrite (Hz h p0 E Hp0) in Hv.
    discriminate Hv.
Qed.

(** X9.  When the emission row of [<EOS>] is 1 at the word [w] and the
    row of every other state is 0 there, every word sequence that
    [generate] returns ends with [w] and holds no [w] before: in the
    notebook, a sentence has its full stop at the end and nowhere else. *)
Theorem end_marker_only_at_end {rng}
    (choice : nat -> list Q -> rng -> option nat * rng)
    fuel init tr em g h_total v_total g' w p :
  supported choice ->
  nth_error em EOS = Some p -> one_hot w p ->
  (forall s p', s <> EOS -> nth_error em s = Some p' ->
                (nth w p' 0 == 0)%Q) ->
  generate choice fuel init tr em g = (Ok (h_total, v_total), g') ->
  exists earlier, v_total = earlier ++ [w] /\ ~ In w earlier.
Proof.
  intros Hs Hp Op Hz H. apply generate_Ok in H.
  destruct H as (row & em' & h0 & g1 & hs & -> & Hh0 & -> & St & _).
  exact (steps_end_marker _ _ _ _ _ _ _ _ _ _ _ _ Hs Hp Op Hz St).
Qed.

(** In the call of the scenario "." (14) comes last only. *)
Lemma end_marker_only_at_end_scenario :
  exists earlier, [0; 4; 13; 14] = earlier ++ [14] /\ ~ In 14 earlier.
Proof.
  apply (end_marker_only_at_end scripted 3 initial transition emission
           scenario [0; 3; 4; 5] [0; 4; 13; 14] [] 14 _
           scripted_supported eq_refl).
  - apply EOS_row_one_hot. reflexivity.
  - intros s p' Hne Hp'.
    do 5 (destruct s as [| s]; [inversion Hp'; reflexivity |]).
    destruct s; [contradiction Hne; reflexivity | destruct s; discriminate Hp'].
  - reflexivity.
Defined.

Lemma walk_penultimate tr o :
  (forall s q, nth_error tr s = Some q -> (0 < nth EOS q 0)%Q -> s = o) ->
  forall h hs, walk tr h hs -> hs <> [] ->
  exists earlier, h :: hs = earlier ++ [o; EOS].
Proof.
  intros Ho. induction 1 as [| h q h' hs E Hq P Wk IH]; intros Hne.
  - congruence.
  - destruct hs as [| h'' hs].
    + inversion Wk; subst. exists []. cbn.
      rewrite (Ho h q Hq P). reflexivity.
    + destruct IH as (earlier & IH); [discriminate |].
      exists (h :: earlier). cbn. rewrite IH. reflexivity.
Qed.

(** X10.  When [<EOS>] has no initial probability and a single state [o]
    has a transition of positive probability into it, every state
    sequence that [generate] returns ends with [o] followed by [<EOS>]:
    in the notebook, a template ends with Object and <EOS>. *)
Theorem terminal_follows_its_only_source {rng}
    (choice : nat -> list Q -> rng -> option nat * rng)
    fuel init tr em g h_total v_total g' o :
  supported choice ->
  (nth EOS init 0 == 0)%Q ->
  (forall s q, nth_error tr s = Some q -> (0 < nth EOS q 0)%Q -> s = o) ->
  generate choice fuel init tr em g = (Ok (h_total, v_total), g') ->
  exists earlier, h_total = earlier ++ [o; EOS].
Proof.
  intros Hs Hi Ho H. apply generate_Ok in H.
  destruct H as (row & em' & h0 & g1 & hs & -> & Hh0 & -> & St & _).
  apply (walk_penultimate tr o Ho).
  - exact (steps_walk _ _ _ _ _ _ _ _ _ _ Hs St).
  - intros ->. inversion St; subst.
    apply Hs in Hh0. rewrite Hi in Hh0. discriminate Hh0.
Qed.

(** In the notebook only Object leads to <EOS>. *)
Lemma terminal_follows_its_only_source_scenario :
  exists earlier, [0; 3; 4; 5] = earlier ++ [4; EOS].
Proof.
  apply (terminal_follows_its_only_source scripted 3 initial transition
           emission scenario [0; 3; 4; 5] [0; 4; 13; 14] [] 4
           scripted_supported).
  - reflexivity.
  - intros s q Hq P.
    do 4 (destruct s as [| s]; [inversion Hq; subst; discriminate P |]).
    destruct s; [reflexivity | destruct s; discriminate Hq].
  - reflexivity.
Defined.

(** ** The cell that samples the Markov chain alone *)

Lemma chain_loop_walk {rng}
    (choice : nat -> list Q -> rng -> option nat * rng) N tr :
  supported choice ->
  forall fuel h acc g h_total g',
    chain_loop choice fuel N tr h acc g = (Ok h_total, g') ->
    exists hs, h_total = acc ++ hs /\ walk tr h hs /\ length hs <= fuel.
Proof.
  intros Hs.
  induction fuel as [| fuel IH]; intros h acc g h_total g';
    cbn [chain_loop]; destruct (Nat.eqb_spec h EOS) as [E | E];
    cbv [ret diverge]; intros H; try discriminate;
    try (inversion H; subst; exists []; rewrite app_nil_r;
         split; [reflexivity | split; [apply walk_stop | cbn; lia]]).
  apply bind_Ok in H. destruct H as (q & g0 & Hq & H).
  apply getitem_Ok in Hq. destruct Hq as [Hq ->].
  apply bind_Ok in H. destruct H as (h' & g1 & Hh' & H).
  apply random_choice_Ok in Hh'.
  apply IH in H. destruct H as (hs & -> & Wk & Le).
  exists (h' :: hs). rewrite <- app_assoc. split; [reflexivity |].
  split; [| cbn; lia].
  eapply walk_go; [exact E | exact Hq | exact (Hs _ _ _ _ _ Hh') | exact Wk].
Qed.

(** A walk is what the cell computes from the script of its states. *)
Lemma walk_chain_loop N tr : forall h hs,
  walk tr h hs ->
  forall fuel acc rest,
    length hs <= fuel ->
    chain_loop scripted fuel N tr h acc (hs ++ rest) = (Ok (acc ++ hs), rest).
Proof.
  induction 1 as [| h q h' hs E Hq P Wk IH]; intros fuel acc rest Le.
  - rewrite app_nil_r. destruct fuel; reflexivity.
  - destruct fuel as [| fuel]; [cbn in Le; lia |].
    cbn [chain_loop]. destruct (Nat.eqb_spec h EOS) as [E' | _];
      [contradiction |].
    rewrite (bind_step _ _ _ _ _ (getitem_Some Transition tr h _ _ Hq)).
    assert (D : random_choice scripted N q ((h' :: hs) ++ rest)
                = (Ok h', hs ++ rest)).
    { apply random_choice_Some. cbn.
      rewrite (proj2 (positive_at_spec q h') P). reflexivity. }
    rewrite (bind_step _ _ _ _ _ D).
    rewrite IH by (cbn in Le; lia).
    rewrite <- app_assoc. reflexivity.
Qed.

(** X11.  For a sampler that returns only indices of positive
    probability, the state sequence that the cell returns starts at a
    state of positive initial probability, moves along transitions of
    positive probability, ends with [<EOS>] and holds no [<EOS>] before. *)
Theorem markov_chain_walks {rng}
    (choice : nat -> list Q -> rng -> option nat * rng)
    fuel init tr g h_total g' :
  supported choice ->
  markov_chain choice fuel init tr g = (Ok h_total, g') ->
  (0 < nth (hd 0%nat h_total) init 0)%Q /\
  walk tr (hd 0 h_total) (tl h_total) /\
  exists earlier, h_total = earlier ++ [EOS] /\ ~ In EOS earlier.
Proof.
  intros Hs H. unfold markov_chain in H.
  apply bind_Ok in H. destruct H as (h0 & g1 & Hh0 & H).
  apply random_choice_Ok in Hh0.
  apply (chain_loop_walk choice _ _ Hs) in H.
  destruct H as (hs & -> & Wk & _). cbn [app hd tl].
  split; [exact (Hs _ _ _ _ _ Hh0) |]. split; [exact Wk |].
  exact (walk_terminal tr h0 hs Wk).
Qed.

(** The output that the notebook records for the cell,
    [[1, 0, 3, 1, 0, 3, 4, 5]]. *)
Lemma markov_chain_walks_recorded :
  (0 < nth 1%nat initial 0)%Q /\
  walk transition 1 [0; 3; 1; 0; 3; 4; 5] /\
  exists earlier,
    [1; 0; 3; 1; 0; 3; 4; 5] = earlier ++ [EOS] /\ ~ In EOS earlier.
Proof.
  exact (markov_chain_walks scripted 7 initial transition
           [1; 0; 3; 1; 0; 3; 4; 5] [1; 0; 3; 1; 0; 3; 4; 5] []
           scripted_supported eq_refl).
Defined.

(** X12.  The state sequence that [generate] returns is one that the
    cell returns: replayed as a script, the states alone take the cell
    through the same sequence, with the same fuel. *)
Theorem generate_states_replay {rng}
    (choice : nat -> list Q -> rng -> option nat * rng)
    fuel init tr em g h_total v_total g' rest :
  supported choice ->
  generate choice fuel init tr em g = (Ok (h_total, v_total), g') ->
  markov_chain scripted fuel init tr (h_total ++ rest) = (Ok h_total, rest).
Proof.
  intros Hs H. apply generate_Ok in H.
  destruct H as (row & em' & h0 & g1 & hs & -> & Hh0 & -> & St & Le).
  unfold markov_chain.
  assert (D : random_choice scripted (length init) init
                ((h0 :: hs) ++ rest) = (Ok h0, hs ++ rest)).
  { apply random_choice_Some. cbn.
    rewrite (proj2 (positive_at_spec init h0) (Hs _ _ _ _ _ Hh0)).
    reflexivity. }
  rewrite (bind_step _ _ _ _ _ D).
  exact (walk_chain_loop _ tr h0 hs (steps_walk _ _ _ _ _ _ _ _ _ _ Hs St)
           fuel ([] ++ [h0]) rest Le).
Qed.

(** The states of the scenario, replayed. *)
Lemma generate_states_replay_scenario :
  markov_chain scripted 3 initial transition ([0; 3; 4; 5] ++ [7])
  = (Ok [0; 3; 4; 5], [7]).
Proof.
  exact (generate_states_replay scripted 3 initial transition emission
           scenario [0; 3; 4; 5] [0; 4; 13; 14] [] [7]
           scripted_supported eq_refl).
Defined.

Lemma chain_loop_Raise {rng}
    (choice : nat -> list Q -> rng -> option nat * rng) N tr :
  supported choice ->
  Forall (fun q => length q = S EOS) tr ->
  EOS <= length tr ->
  forall fuel h acc g e g',
    h <= EOS ->
    chain_loop choice fuel N tr h acc g = (Raise e, g') ->
    e = ValueError /\ exists p g0, In p tr /\ choice N p g0 = (None, g').
Proof.
  intros Hs Htr Hrows. rewrite Forall_forall in Htr.
  induction fuel as [| fuel IH]; intros h acc g e g' Hh;
    cbn [chain_loop]; destruct (Nat.eqb_spec h EOS) as [E | E];
    cbv [ret diverge]; try discriminate.
  intros H.
  apply bind_Raise in H. destruct H as [H | (q & g0 & Hq & H)].
  { apply getitem_Raise in H. destruct H as (H & _ & _).
    apply nth_error_None in H. lia. }
  apply getitem_Ok in Hq. destruct Hq as [Hq ->].
  apply bind_Raise in H. destruct H as [H | (h' & g1 & Hh' & H)].
  { apply random_choice_Raise in H. destruct H as [H ->].
    split; [reflexivity |]. exists q, g.
    split; [exact (nth_error_In _ _ Hq) | exact H]. }
  apply random_choice_Ok in Hh'.
  apply (IH h' _ _ _ _) in H; [exact H |].
  pose proof (positive_in_range _ _ (Hs _ _ _ _ _ Hh')) as L.
  rewrite (Htr q (nth_error_In _ _ Hq)) in L. lia.
Qed.

(** X13.  Over six states and with a sampler that returns only indices of
    positive probability, the cell never subscripts [transition] out of
    range, though the table has no row for [<EOS>]: its only exception is
    the [ValueError] of the sampler, raised on [initial] or on a row of
    [transition]. *)
Theorem markov_chain_raises_only_refusals {rng}
    (choice : nat -> list Q -> rng -> option nat * rng)
    fuel init tr g e g' :
  supported choice ->
  length init = 6 ->
  Forall (fun q => length q = 6) tr ->
  5 <= length tr ->
  markov_chain choice fuel init tr g = (Raise e, g') ->
  e = ValueError /\
  exists p g0,
    (p = init \/ In p tr) /\ choice (length init) p g0 = (None, g').
Proof.
  intros Hs Hi Htr Hrows H. unfold markov_chain in H.
  apply bind_Raise in H. destruct H as [H | (h0 & g1 & Hh0 & H)].
  { apply random_choice_Raise in H. destruct H as [H ->].
    split; [reflexivity |]. exists init, g. auto. }
  apply random_choice_Ok in Hh0.
  apply (chain_loop_Raise choice _ _ Hs Htr Hrows) in H.
  - destruct H as (-> & p & g0 & Hin & Hr).
    split; [reflexivity |]. exists p, g0. auto.
  - pose proof (positive_in_range _ _ (Hs _ _ _ _ _ Hh0)) as L.
    rewrite Hi in L. apply Nat.lt_succ_r. exact L.
Qed.

(** A script that draws Object after Subject is refused on the row of
    Subject. *)
Lemma markov_chain_raises_only_refusals_scenario :
  ValueError = ValueError /\
  exists p g0,
    (p = initial \/ In p transition) /\
    scripted (length initial) p g0 = (None, [5]).
Proof.
  apply (markov_chain_raises_only_refusals scripted 3 initial transition
           [0; 4; 5] ValueError [5] scripted_supported).
  - reflexivity.
  - repeat constructor.
  - cbn. lia.
  - reflexivity.
Defined.
